(** * reverie_ppr: the KKW parameter search ([kkw_param.py]) and the
      benchmark log parser ([parse_result.py])

    A shallow embedding of the two scripts.  Python integers are [Z],
    Python floats are IEEE-754 binary64 values taken from the Standard
    Library's [SpecFloat], lists are [list], exceptions are an explicit
    outcome type, and the script-level globals ([lst], [min_tuples],
    [parsed_data], [circuit_name]) are threaded as explicit state. *)

From Stdlib Require Import ZArith QArith List Lia Bool Arith.
From Stdlib Require Import Floats.SpecFloat.
From Stdlib Require Import Strings.String Strings.Ascii.
From Stdlib Require Import Sorting.Permutation.
Import ListNotations.

Local Open Scope Z_scope.

(** ** Python built-ins used by the scripts *)

Module Py.

(** [range(start, stop, step)] for a non-zero [step]; the scripts only
    call it with the literal steps [1], [-1] and [8]. *)
Definition range_len (start stop step : Z) : Z :=
  if 0 <? step then (stop - start + step - 1) / step
  else if step <? 0 then (start - stop - step - 1) / (- step)
  else 0.

Definition range3 (start stop step : Z) : list Z :=
  map (fun i => start + Z.of_nat i * step)
      (seq 0 (Z.to_nat (range_len start stop step))).

(** [range(start, stop)] *)
Definition range2 (start stop : Z) : list Z := range3 start stop 1.

(** [functools.reduce(f, xs, init)] *)
Definition reduce {A B : Type} (f : A -> B -> A) (xs : list B) (init : A) : A :=
  fold_left f xs init.

(** [min(a, b)] on integers *)
Definition min (a b : Z) : Z := if b <? a then b else a.

End Py.

(** ** [kkw_param.py]: the combinatorics helper *)

(** [numer] and [denom] of [ncr], after [r = min(r, n-r)]. *)
Definition ncr_numer (n r : Z) : Z :=
  Py.reduce Z.mul (Py.range3 n (n - r) (-1)) 1.

Definition ncr_denom (r : Z) : Z :=
  Py.reduce Z.mul (Py.range2 1 (r + 1)) 1.

(** [def ncr(n, r)]; [//] is floor division, which is [Z.div]. *)
Definition ncr (n r : Z) : Z :=
  let r := Py.min r (n - r) in
  let numer := ncr_numer n r in
  let denom := ncr_denom r in
  numer / denom.

(** The reference the helper is compared with: factorials and Pascal's
    triangle on natural numbers. *)
Definition factZ (n : Z) : Z := Z.of_nat (fact (Z.to_nat n)).

Fixpoint binom (n k : nat) : nat :=
  match n, k with
  | _, O => 1
  | O, S _ => 0
  | S n', S k' => binom n' k' + binom n' k
  end%nat.


(** ** Exceptions and outcomes *)

(** The exceptions the two scripts can raise. *)
Inductive exn : Type :=
| OverflowError
| ZeroDivisionError
| IndexError
| NameError
| AttributeError
| ValueError
| KeyError.

(** The outcome of running a piece of Python: a value, a raised exception,
    or [OutOfModel] when the run leaves the fragment modelled here (the only
    such place is an integer power with a negative exponent whose exact
    value is not a float: the result then depends on the rounding of the C
    library's [pow]). *)
Inductive outcome (A : Type) : Type :=
| Ok (a : A)
| Raise (e : exn)
| OutOfModel.

Arguments Ok {A} a.
Arguments Raise {A} e.
Arguments OutOfModel {A}.

Definition bind {A B : Type} (m : outcome A) (k : A -> outcome B) : outcome B :=
  match m with
  | Ok a => k a
  | Raise e => Raise e
  | OutOfModel => OutOfModel
  end.

Notation "x <- m ;; k" := (bind m (fun x => k))
  (at level 61, m at next level, right associativity).

(** [for x in xs: body], the loop body threading the state [S]. *)
Fixpoint for_each {S A : Type} (xs : list A) (body : A -> S -> outcome S) (s : S)
  : outcome S :=
  match xs with
  | [] => Ok s
  | x :: rest => s' <- body x s ;; for_each rest body s'
  end.

(** ** Python floats: IEEE-754 binary64 *)

Module Float.

Definition prec : Z := 53.
Definition emax : Z := 1024.

Definition float : Type := spec_float.

(** The literal [0.0]. *)
Definition zero : float := S754_zero false.

(** The literal [1.0], that is 2^52 * 2^-52. *)
Definition one : float := S754_finite false 4503599627370496 (-52).

(** An integer as an exact, not yet rounded, binary number. *)
Definition exact (z : Z) : float :=
  match z with
  | Z0 => S754_zero false
  | Zpos p => S754_finite false p 0
  | Zneg p => S754_finite true p 0
  end.

(** [float(c)] for an integer [c]: rounded to nearest, ties to even;
    OverflowError when the rounded value is out of range. *)
Definition of_int (c : Z) : outcome float :=
  match binary_normalize prec emax c 0 false with
  | S754_infinity _ => Raise OverflowError
  | f => Ok f
  end.

(** [a / b] on two integers: the correctly rounded quotient;
    ZeroDivisionError when [b] is zero, OverflowError when the quotient is
    too large for a float. *)
Definition int_truediv (a b : Z) : outcome float :=
  if b =? 0 then Raise ZeroDivisionError
  else match SFdiv prec emax (exact a) (exact b) with
       | S754_infinity _ => Raise OverflowError
       | f => Ok f
       end.

(** [d / c] for a float [d] and an integer [c]: [c] is converted first. *)
Definition truediv_int (d : float) (c : Z) : outcome float :=
  fc <- of_int c ;;
  match fc with
  | S754_zero _ => Raise ZeroDivisionError
  | _ => Ok (SFdiv prec emax d fc)
  end.

(** [d / c] on two floats: ZeroDivisionError when [c] is zero; otherwise
    the IEEE quotient, an infinity included, without any exception. *)
Definition truediv (d c : float) : outcome float :=
  match c with
  | S754_zero _ => Raise ZeroDivisionError
  | _ => Ok (SFdiv prec emax d c)
  end.

(** The float [f] stands for the integer [z] exactly. *)
Definition is_int (f : float) (z : Z) : bool :=
  match f with
  | S754_zero _ => z =? 0
  | S754_finite s m e =>
      (0 <=? e) && ((if s then Z.neg m else Z.pos m) * 2 ^ e =? z)
      || (e <? 0) && ((if s then Z.neg m else Z.pos m) =? z * 2 ^ (- e))
  | _ => false
  end.

(** The float [f] stands for [1 / z] exactly. *)
Definition is_inverse (f : float) (z : Z) : bool :=
  match f with
  | S754_finite s m e =>
      (e <=? 0) && ((if s then Z.neg m else Z.pos m) * z =? 2 ^ (- e))
  | _ => false
  end.

(** [n ** k] for integers [n] and [k < 0], which Python computes as
    [pow(float(n), float(k))]: both conversions can raise OverflowError, a
    zero base raises ZeroDivisionError, and the C library's [pow] returns
    the power itself whenever that is a float.  Other powers, which [pow]
    rounds, are left out of the model. *)
Definition pow_neg (n k : Z) : outcome float :=
  fn <- of_int n ;;
  fk <- of_int k ;;
  match fn with
  | S754_zero _ => Raise ZeroDivisionError
  | _ =>
      let r := SFdiv prec emax (exact 1) (exact (n ^ (- k))) in
      if is_int fn n && is_int fk k && is_inverse r (n ^ (- k)) then Ok r
      else OutOfModel
  end.

(** The rational number a finite float stands for. *)
Definition value (f : float) : option Q :=
  match f with
  | S754_zero _ => Some (0 # 1)%Q
  | S754_finite s m e =>
      let z := if s then Z.neg m else Z.pos m in
      Some (if 0 <=? e then inject_Z (z * 2 ^ e)
            else Qmake z (Z.to_pos (2 ^ (- e))))
  | _ => None
  end.

(** [x < y] and [x <= y] on floats. *)
Definition ltb (x y : float) : bool := SFltb x y.
Definition leb (x y : float) : bool := SFleb x y.

End Float.

(** A Python number: an [int] or a [float]. *)
Inductive num : Type :=
| Int (z : Z)
| Flt (f : Float.float).

(** [n ** k] on integers: an integer for [k >= 0], a float for [k < 0]. *)
Definition int_pow (n k : Z) : outcome num :=
  if k <? 0 then f <- Float.pow_neg n k ;; Ok (Flt f) else Ok (Int (n ^ k)).

(** [d / c] for a float [d] and a number [c]. *)
Definition truediv_num (d : Float.float) (c : num) : outcome Float.float :=
  match c with
  | Int z => Float.truediv_int d z
  | Flt f => Float.truediv d f
  end.

(** ** [kkw_param.py]: the soundness error and the search *)

(** [target = 0.5**60], which is 2^52 * 2^-112 exactly. *)
Definition target : Float.float := S754_finite false 4503599627370496 (-112).

(** The body of the [try] block of [err_sg]: [d = a/b; e = d/c]. *)
Definition ratio (a b : Z) (c : num) : outcome Float.float :=
  d <- Float.int_truediv a b ;;
  truediv_num d c.

(** [def err_sg(M, tau, n, rho)] *)
Definition err_sg (M tau n rho : Z) : outcome Float.float :=
  let a := ncr rho (M - tau) in
  let b := ncr M (M - tau) in
  c <- int_pow n (rho - M + tau) ;;
  match ratio a b c with
  | Raise OverflowError => Ok Float.zero
  | r => r
  end.

(** The [for rho in range(M-tau+1, M+1)] loop of [err], from a given
    [base]. *)
Fixpoint err_loop (M tau n : Z) (rhos : list Z) (base : Float.float)
  : outcome Float.float :=
  match rhos with
  | [] => Ok base
  | rho :: rest =>
      ret <- err_sg M tau n rho ;;
      err_loop M tau n rest (if Float.ltb base ret then ret else base)
  end.

(** The value of the local [base] when the loop of [err] is over. *)
Definition err_base (M tau n : Z) : outcome Float.float :=
  err_loop M tau n (Py.range2 (M - tau + 1) (M + 1)) Float.zero.

(** [def err(M, tau, n)]: the function returns nothing; its effect is on
    the global [lst], threaded here. *)
Definition err (M tau n : Z) (lst : list (Z * Z)) : outcome (list (Z * Z)) :=
  base <- err_base M tau n ;;
  Ok (if Float.ltb base target then lst ++ [(M, tau)] else lst).

(** The two nested [for] loops over [M] and [tau]. *)
Definition search (Ms taus : list Z) (n : Z) (lst : list (Z * Z))
  : outcome (list (Z * Z)) :=
  for_each Ms (fun M => for_each taus (fun tau => err M tau n)) lst.

(** The initial [min_tuples]. *)
Definition sentinel : Z * Z := (10000, 10000).

(** One iteration of [for tp in lst], with its two consecutive [if]s. *)
Definition select_step (min_tuples tp : Z * Z) : Z * Z :=
  let min_tuples := if snd tp <? snd min_tuples then tp else min_tuples in
  if (fst tp <? fst min_tuples) && (snd tp =? snd min_tuples) then tp
  else min_tuples.

Definition select_from (min_tuples : Z * Z) (lst : list (Z * Z)) : Z * Z :=
  fold_left select_step lst min_tuples.

Definition select (lst : list (Z * Z)) : Z * Z := select_from sentinel lst.

(** What the script prints. *)
Inductive printed : Type :=
| PrintStr (s : string)
| PrintTuple (tp : Z * Z).

(** The whole script for given ranges of [M] and [tau] and a given [n]. *)
Definition run (Ms taus : list Z) (n : Z) : outcome (list printed) :=
  lst <- search Ms taus n [] ;;
  Ok [PrintStr "finish computing"; PrintTuple (select lst)].

(** The number of parties simulated: the global [n = 16]. *)
Definition n : Z := 16.

(** The script as written, over [range(64, 512, 8)] and [range(8, 50, 8)]. *)
Definition main : outcome (list printed) :=
  run (Py.range3 64 512 8) (Py.range3 8 50 8) n.

(** ** [parse_result.py]: the benchmark log parser *)

Module LogParser.

Local Open Scope string_scope.

(** The hardcoded list of circuit names. *)
Definition circuit_names : list string :=
  ["amortized_aco_512_12.txt"; "amortized_aco_128_9.txt"; "amortized_aco_128_8.txt";
   "amortized_aco_64_8.txt"; "amortized_aco_64_9.txt"; "amortized_aco_256_9.txt";
   "amortized_aco_256_10.txt"; "amortized_aco_512_7.txt"; "amortized_aco_512_11.txt";
   "amortized_aco_512_9.txt"; "amortized_aco_128_10.txt"; "amortized_aco_128_11.txt";
   "amortized_aco_128_12.txt"; "amortized_aco_256_12.txt"; "amortized_aco_256_11.txt";
   "amortized_aco_256_8.txt"; "amortized_aco_64_12.txt"; "amortized_aco_512_10.txt";
   "amortized_aco_64_11.txt"; "amortized_aco_128_7.txt"; "amortized_aco_512_8.txt";
   "amortized_aco_256_7.txt"; "amortized_aco_64_7.txt"; "amortized_aco_64_10.txt";
   "amortized_akv.txt"].

Definition fieldnames : list string := ["Circuit Name"; "Size (bytes)"; "Time (ms)"].

(** The two kinds of lines the loop reacts to, by [line.startswith]. *)
Inductive kind : Type := KSize | KElapsed | KOther.

Definition kind_of (line : string) : kind :=
  if String.prefix "The size of the serialized object" line then KSize
  else if String.prefix "Elapsed" line then KElapsed
  else KOther.

(** The character classes [\d] and [[\d.]] on ASCII text. *)
Definition is_digit (c : ascii) : bool :=
  ((48 <=? nat_of_ascii c) && (nat_of_ascii c <=? 57))%nat.

Definition is_digit_or_dot (c : ascii) : bool :=
  is_digit c || (nat_of_ascii c =? 46)%nat.

Fixpoint take_while (p : ascii -> bool) (s : string) : string :=
  match s with
  | EmptyString => EmptyString
  | String c rest => if p c then String c (take_while p rest) else EmptyString
  end.

(** [re.search(r'[class]+', s)]: the leftmost longest run of the class,
    or [None]. *)
Fixpoint re_search (p : ascii -> bool) (s : string) : option string :=
  match s with
  | EmptyString => None
  | String c rest => if p c then Some (take_while p s) else re_search p rest
  end.

(** [int(tok)] on a run of digits. *)
Fixpoint int_of_digits (tok : string) (acc : Z) : Z :=
  match tok with
  | EmptyString => acc
  | String c rest => int_of_digits rest (10 * acc + (Z.of_nat (nat_of_ascii c) - 48))
  end.

Fixpoint contains_dot (tok : string) : bool :=
  match tok with
  | EmptyString => false
  | String c rest => (nat_of_ascii c =? 46)%nat || contains_dot rest
  end.

(** The digits before the first dot, and what follows that dot. *)
Fixpoint split_dot (tok : string) : string * option string :=
  match tok with
  | EmptyString => (EmptyString, None)
  | String c rest =>
      if (nat_of_ascii c =? 46)%nat then (EmptyString, Some rest)
      else let '(a, b) := split_dot rest in (String c a, b)
  end.

(** [float(tok)] on a run of digits and dots: ValueError unless there is
    at most one dot and at least one digit; otherwise the decimal number,
    correctly rounded (an infinity when it is out of range). *)
Definition py_float (tok : string) : outcome Float.float :=
  let '(ip, fo) := split_dot tok in
  let fp := match fo with Some f => f | None => EmptyString end in
  if contains_dot fp || (String.length (ip ++ fp) =? 0)%nat then Raise ValueError
  else Ok (SFdiv Float.prec Float.emax
             (Float.exact (int_of_digits (ip ++ fp) 0))
             (Float.exact (10 ^ Z.of_nat (String.length fp)))).

(** The inner dictionaries [{'size': ..., 'time_ms': ...}]: the key
    ['time_ms'] may be missing. *)
Record entry : Type := { size : Z; time_ms : option Float.float }.

(** [parsed_data], a dictionary in insertion order. *)
Definition dict : Type := list (string * entry).

Fixpoint dict_get (d : dict) (k : string) : option entry :=
  match d with
  | [] => None
  | (k', v) :: rest => if String.eqb k' k then Some v else dict_get rest k
  end.

Fixpoint dict_set (d : dict) (k : string) (v : entry) : dict :=
  match d with
  | [] => [(k, v)]
  | (k', v') :: rest =>
      if String.eqb k' k then (k', v) :: rest else (k', v') :: dict_set rest k v
  end.

(** The globals of the script: [parsed_data], and [circuit_name], which
    is unbound until the first size line. *)
Record state : Type := { parsed_data : dict; circuit_name : option string }.

Definition initial : state := {| parsed_data := []; circuit_name := None |}.

(** The body of [for i, line in enumerate(lines)]. *)
Definition step (i : nat) (line : string) (st : state) : outcome state :=
  match kind_of line with
  | KSize =>
      match re_search is_digit line with
      | None => Raise AttributeError
      | Some tok =>
          let sz := int_of_digits tok 0 in
          match nth_error circuit_names i with
          | None => Raise IndexError
          | Some name =>
              Ok {| parsed_data :=
                      dict_set (parsed_data st) name {| size := sz; time_ms := None |};
                    circuit_name := Some name |}
          end
      end
  | KElapsed =>
      match re_search is_digit_or_dot line with
      | None => Raise AttributeError
      | Some tok =>
          t <- py_float tok ;;
          match circuit_name st with
          | None => Raise NameError
          | Some name =>
              match dict_get (parsed_data st) name with
              | None => Raise KeyError
              | Some e =>
                  Ok {| parsed_data :=
                          dict_set (parsed_data st) name
                                   {| size := size e; time_ms := Some t |};
                        circuit_name := Some name |}
              end
          end
      end
  | KOther => Ok st
  end.

Fixpoint parse_lines (i : nat) (lines : list string) (st : state) : outcome state :=
  match lines with
  | [] => Ok st
  | line :: rest => st' <- step i line st ;; parse_lines (S i) rest st'
  end.

(** The rows written after the header: [data['time_ms']] raises KeyError
    when the key is missing. *)
Fixpoint write_rows (d : dict) : outcome (list (string * Z * Float.float)) :=
  match d with
  | [] => Ok []
  | (name, e) :: rest =>
      match time_ms e with
      | None => Raise KeyError
      | Some t => rows <- write_rows rest ;; Ok ((name, size e, t) :: rows)
      end
  end.

(** The whole script on the lines of the log file. *)
Definition parse (lines : list string) : outcome (list (string * Z * Float.float)) :=
  st <- parse_lines 0 lines initial ;;
  write_rows (parsed_data st).

(** *** Predicates on logs used in the statements *)

(** The script ends in an exception. *)
Definition fails (lines : list string) : Prop := exists e, parse lines = Raise e.

(** Lines starting with the size prefix, and lines matching neither prefix. *)
Definition is_size_line (line : string) : bool :=
  match kind_of line with KSize => true | _ => false end.

Definition is_other (line : string) : Prop := kind_of line = KOther.

(** No string occurs twice in the list. *)
Fixpoint distinctb (l : list string) : bool :=
  match l with
  | [] => true
  | x :: rest => negb (existsb (String.eqb x) rest) && distinctb rest
  end.

(** The name and the size the loop records for each size line: the name
    at the index of the line, the size from its first run of digits. *)
Fixpoint size_entries (i : nat) (lines : list string) : list (string * Z) :=
  match lines with
  | [] => []
  | line :: rest =>
      match kind_of line, re_search is_digit line, nth_error circuit_names i with
      | KSize, Some tok, Some name =>
          (name, int_of_digits tok 0) :: size_entries (S i) rest
      | _, _, _ => size_entries (S i) rest
      end
  end.

(** Some size line is followed, among the matching lines, by another size
    line or by the end of the log; [pending] tells that the last matching
    line so far is a size line. *)
Fixpoint dangling (pending : bool) (lines : list string) : bool :=
  match lines with
  | [] => pending
  | line :: rest =>
      match kind_of line with
      | KSize => pending || dangling true rest
      | KElapsed => dangling false rest
      | KOther => dangling pending rest
      end
  end.

(** Every entry has its time, except possibly the entry of [k]. *)
Definition timed_except (k : option string) (d : dict) : Prop :=
  Forall (fun kv => Some (fst kv) = k \/ time_ms (snd kv) <> None) d.

(** The keys are distinct, [circuit_name] is one of them once it is bound,
    and only its entry may lack a time, and only while [pending]. *)
Definition well_formed (pending : bool) (st : state) : Prop :=
  NoDup (map fst (parsed_data st)) /\
  (forall nm, circuit_name st = Some nm -> In nm (map fst (parsed_data st))) /\
  timed_except (if pending then circuit_name st else None) (parsed_data st).

(** A reading of the log without a dictionary: a size line opens a new
    row, with the name at the index of the line; an Elapsed line sets the
    time of the row opened last.  The rows are kept newest first. *)
Fixpoint read_rows (i : nat) (lines : list string)
  (stack : list (string * Z * option Float.float))
  : list (string * Z * option Float.float) :=
  match lines with
  | [] => rev stack
  | line :: rest =>
      match kind_of line with
      | KSize =>
          match re_search is_digit line, nth_error circuit_names i with
          | Some tok, Some name =>
              read_rows (S i) rest ((name, int_of_digits tok 0, None) :: stack)
          | _, _ => read_rows (S i) rest stack
          end
      | KElapsed =>
          match re_search is_digit_or_dot line with
          | Some tok =>
              match py_float tok, stack with
              | Ok t, (name, sz, _) :: below =>
                  read_rows (S i) rest ((name, sz, Some t) :: below)
              | _, _ => read_rows (S i) rest stack
              end
          | None => read_rows (S i) rest stack
          end
      | KOther => read_rows (S i) rest stack
      end
  end.

(** The dictionary that holds the rows of a stack, oldest first. *)
Definition entry_of (r : string * Z * option Float.float) : string * entry :=
  (fst (fst r), {| size := snd (fst r); time_ms := snd r |}).

Definition dict_of (stack : list (string * Z * option Float.float)) : dict :=
  map entry_of (rev stack).

(** The state of the loop before line [i] holds exactly the rows of
    [stack], and [circuit_name] is the name of the newest row. *)
Definition holds_rows (i : nat) (st : state)
  (stack : list (string * Z * option Float.float)) : Prop :=
  parsed_data st = dict_of stack /\
  circuit_name st = match stack with
                    | [] => None
                    | r :: _ => Some (fst (fst r))
                    end /\
  NoDup (map (fun r => fst (fst r)) stack) /\
  (forall r, In r stack ->
     exists j, (j < i)%nat /\ nth_error circuit_names j = Some (fst (fst r))).

(** The keys of [parsed_data] with the sizes stored under them. *)
Definition key_sizes (d : dict) : list (string * Z) :=
  map (fun kv => (fst kv, size (snd kv))) d.

(** The entry of [name] has no time, and [circuit_name] is another name. *)
Definition time_missing (name : string) (st : state) : Prop :=
  (exists e, dict_get (parsed_data st) name = Some e /\ time_ms e = None) /\
  (exists nm, circuit_name st = Some nm /\ nm <> name).

End LogParser.

(** ** Predicates and measures used in the statements *)

(** The product of a list of integers. *)
Definition lprod (l : list Z) : Z := fold_right Z.mul 1 l.

(** The falling product [n (n-1) ... (n-k+1)]. *)
Definition falling (n : Z) (k : nat) : Z :=
  lprod (map (fun i => n - Z.of_nat i) (seq 0 k)).

(** [a] is at least as good as [b]: smaller tau, or equal tau and an M
    that is not larger. *)
Definition better_eq (a b : Z * Z) : Prop :=
  snd a < snd b \/ (snd a = snd b /\ fst a <= fst b).

(** The exponent of the binary64 format for a number of a given magnitude. *)
Abbreviation fexp64 := (fexp Float.prec Float.emax).

(** A float that is [0.0] or positive with value m * 2^e at most one. *)
Definition le_one (f : spec_float) : Prop :=
  match f with
  | S754_zero false => True
  | S754_finite false m e => e <= -52 /\ Z.pos m <= 2 ^ (- e)
  | _ => False
  end.

(** A positive float with value m * 2^e at least one. *)
Definition ge_one (f : spec_float) : Prop :=
  match f with
  | S754_finite false m e => 0 <= e \/ 2 ^ (- e) <= Z.pos m
  | _ => False
  end.

(** m1 * 2^e1 <= m2 * 2^e2, with both sides scaled to integers. *)
Definition val_le (m1 e1 m2 e2 : Z) : Prop :=
  m1 * 2 ^ (e1 - Z.min e1 e2) <= m2 * 2 ^ (e2 - Z.min e1 e2).

(** [0.0] or a positive finite float. *)
Definition nonneg (f : spec_float) : Prop :=
  match f with
  | S754_zero false | S754_finite false _ _ => True
  | _ => False
  end.

(** The order of [SFcompare] on such floats: zero first, then by exponent,
    then by mantissa. *)
Definition fle (x y : spec_float) : Prop :=
  match x, y with
  | S754_zero _, _ => True
  | S754_finite _ m1 e1, S754_finite _ m2 e2 =>
      e1 < e2 \/ (e1 = e2 /\ Z.pos m1 <= Z.pos m2)
  | _, _ => False
  end.

(** A zero or a finite float, of either sign. *)
Definition finite_float (f : spec_float) : Prop :=
  match f with
  | S754_zero _ | S754_finite _ _ _ => True
  | _ => False
  end.

(** The place of a finite float in the order of [SFcompare]: the sign
    first, then the exponent and the mantissa, reversed below zero. *)
Definition order_key (f : spec_float) : Z * Z * Z :=
  match f with
  | S754_finite false m e => (1, e, Z.pos m)
  | S754_finite true m e => (-1, - e, - Z.pos m)
  | _ => (0, 0, 0)
  end.

Definition lex_le (a b : Z * Z * Z) : Prop :=
  fst (fst a) < fst (fst b) \/
  (fst (fst a) = fst (fst b) /\
   (snd (fst a) < snd (fst b) \/ (snd (fst a) = snd (fst b) /\ snd a <= snd b))).

(** [x <= y] on finite floats of either sign. *)
Definition sle (x y : spec_float) : Prop := lex_le (order_key x) (order_key y).

(** [base] bounds every value of the estimator over the rho range from
    above and is one of these values. *)
Definition is_max_err_sg (M tau n : Z) (base : Float.float) : Prop :=
  (forall rho, M - tau + 1 <= rho <= M ->
     exists v, err_sg M tau n rho = Ok v /\ Float.leb v base = true) /\
  (exists rho, M - tau + 1 <= rho <= M /\ err_sg M tau n rho = Ok base).

(** The worst-case error of the pair [p], as [err] computes it, is below
    the target. *)
Definition below_target (n : Z) (p : Z * Z) : Prop :=
  exists w, err_base (fst p) (snd p) n = Ok w /\ Float.ltb w target = true.

(** The test [base < target] of [err], as a boolean on the pair. *)
Definition passes (n : Z) (p : Z * Z) : bool :=
  match err_base (fst p) (snd p) n with
  | Ok w => Float.ltb w target
  | _ => false
  end.

(** [p] comes strictly before [q] in the order of the selector. *)
Definition strictly_better (q p : Z * Z) : bool :=
  (snd p <? snd q) || ((snd p =? snd q) && (fst p <? fst q)).

(** *** Products over ranges *)

Section RangeProducts.

Lemma fold_left_mul_acc (l : list Z) (a : Z) :
  fold_left Z.mul l a = a * lprod l.
Proof.
  revert a; induction l as [|x l IH]; intros a; simpl.
  - lia.
  - rewrite IH. unfold lprod. lia.
Qed.

Lemma reduce_mul_lprod (l : list Z) : Py.reduce Z.mul l 1 = lprod l.
Proof. unfold Py.reduce. rewrite fold_left_mul_acc. lia. Qed.

Lemma lprod_app (l1 l2 : list Z) : lprod (l1 ++ l2) = lprod l1 * lprod l2.
Proof.
  induction l1 as [|x l1 IH]; simpl.
  - destruct (lprod l2); reflexivity.
  - rewrite IH. lia.
Qed.

Lemma range_down (n r : Z) :
  0 <= r ->
  Py.range3 n (n - r) (-1) =
  map (fun i => n - Z.of_nat i) (seq 0 (Z.to_nat r)).
Proof.
  intros Hr. unfold Py.range3, Py.range_len. simpl.
  replace ((n - (n - r) - -1 - 1) / 1) with r by (rewrite Z.div_1_r; lia).
  apply map_ext. intros i. lia.
Qed.

Lemma range_down_neg (n r : Z) : r <= 0 -> Py.range3 n (n - r) (-1) = [].
Proof.
  intros Hr. unfold Py.range3, Py.range_len. simpl.
  replace ((n - (n - r) - -1 - 1) / 1) with r by (rewrite Z.div_1_r; lia).
  destruct r; try lia; reflexivity.
Qed.

Lemma range_up (a b : Z) :
  Py.range2 a b = map (fun i => a + Z.of_nat i) (seq 0 (Z.to_nat (b - a))).
Proof.
  unfold Py.range2, Py.range3, Py.range_len. simpl.
  replace ((b - a + 1 - 1) / 1) with (b - a) by (rewrite Z.div_1_r; lia).
  apply map_ext. intros i. lia.
Qed.

Lemma falling_S (n : Z) (k : nat) :
  falling n (S k) = n * falling (n - 1) k.
Proof.
  unfold falling. simpl seq. simpl map. simpl lprod.
  rewrite <- seq_shift, map_map. f_equal; [lia|].
  f_equal. apply map_ext. intros i. lia.
Qed.

Lemma falling_fact (k n : nat) :
  (k <= n)%nat ->
  falling (Z.of_nat n) k * Z.of_nat (fact (n - k)) = Z.of_nat (fact n).
Proof.
  revert n; induction k as [|k IH]; intros n Hk.
  - unfold falling. simpl. rewrite Nat.sub_0_r. destruct (Z.of_nat (fact n)); reflexivity.
  - destruct n as [|n]; [lia|].
    rewrite falling_S.
    replace (Z.of_nat (S n) - 1) with (Z.of_nat n) by lia.
    replace (S n - S k)%nat with (n - k)%nat by lia.
    rewrite <- Z.mul_assoc, IH by lia.
    change (fact (S n)) with (S n * fact n)%nat. lia.
Qed.

Lemma rising_fact (k : nat) :
  lprod (map (fun i => 1 + Z.of_nat i) (seq 0 k)) = Z.of_nat (fact k).
Proof.
  induction k as [|k IH].
  - reflexivity.
  - rewrite seq_S, map_app, lprod_app, IH.
    change (fact (S k)) with (S k * fact k)%nat.
    rewrite Nat2Z.inj_mul. unfold lprod. cbn [map fold_right Nat.add]. lia.
Qed.

End RangeProducts.

(** *** Pascal's triangle against factorials *)

Section Binomials.

Lemma binom_gt (n k : nat) : (n < k)%nat -> binom n k = 0%nat.
Proof.
  revert k; induction n as [|n IH]; intros k Hk.
  - destruct k; [lia|reflexivity].
  - destruct k as [|k]; [lia|]. simpl.
    rewrite (IH k), (IH (S k)) by lia. reflexivity.
Qed.

Lemma binom_diag (n : nat) : binom n n = 1%nat.
Proof.
  induction n as [|n IH]; [reflexivity|].
  simpl. rewrite IH, binom_gt by lia. reflexivity.
Qed.

Lemma binom_fact (n k : nat) :
  (k <= n)%nat ->
  (binom n k * (fact k * fact (n - k)) = fact n)%nat.
Proof.
  revert k; induction n as [|n IH]; intros k Hk.
  - replace k with 0%nat by lia. reflexivity.
  - destruct k as [|k].
    + simpl binom. rewrite Nat.sub_0_r. simpl fact at 1. lia.
    + destruct (Nat.eq_dec k n) as [->|Hne].
      * rewrite binom_diag, Nat.sub_diag. simpl fact at 2. lia.
      * simpl binom.
        assert (H1 := IH k ltac:(lia)).
        assert (H2 := IH (S k) ltac:(lia)).
        replace (S n - S k)%nat with (n - k)%nat by lia.
        replace (n - k)%nat with (S (n - S k)) in * by lia.
        change (fact (S n)) with (S n * fact n)%nat.
        change (fact (S k)) with (S k * fact k)%nat in *.
        change (fact (S (n - S k))) with (S (n - S k) * fact (n - S k))%nat in *.
        replace (S n) with (S k + S (n - S k))%nat at 3 by lia.
        nia.
Qed.

Lemma fact_pos (n : nat) : (0 < fact n)%nat.
Proof. apply Nat.neq_0_lt_0, fact_neq_0. Qed.

Lemma binom_pos (n k : nat) : (k <= n)%nat -> (0 < binom n k)%nat.
Proof.
  intros H. pose proof (binom_fact n k H). pose proof (fact_pos n).
  destruct (binom n k); simpl in *; lia.
Qed.

Lemma binom_sym (n k : nat) : (k <= n)%nat -> binom n k = binom n (n - k).
Proof.
  intros H.
  pose proof (binom_fact n k H) as H1.
  pose proof (binom_fact n (n - k) ltac:(lia)) as H2.
  replace (n - (n - k))%nat with k in H2 by lia.
  pose proof (fact_pos k). pose proof (fact_pos (n - k)).
  apply Nat.mul_cancel_r with (p := (fact k * fact (n - k))%nat); [nia|].
  rewrite H1, <- H2. f_equal. lia.
Qed.

Lemma binom_0_r (n : nat) : binom n 0 = 1%nat.
Proof. destruct n; reflexivity. Qed.

Lemma binom_mono (n m k : nat) : (n <= m)%nat -> (binom n k <= binom m k)%nat.
Proof.
  induction 1 as [|m _ IH]; [lia|].
  destruct k as [|k]; [rewrite !binom_0_r; lia|].
  simpl. lia.
Qed.

End Binomials.

(** ** The combinatorics helper is the binomial coefficient *)

Section NcrCorrect.

Lemma ncr_numer_falling (n r : Z) :
  0 <= r -> ncr_numer n r = falling n (Z.to_nat r).
Proof.
  intros Hr. unfold ncr_numer.
  rewrite reduce_mul_lprod, range_down by assumption. reflexivity.
Qed.

Lemma ncr_denom_fact (r : Z) : 0 <= r -> ncr_denom r = factZ r.
Proof.
  intros Hr. unfold ncr_denom, factZ.
  rewrite reduce_mul_lprod, range_up.
  replace (r + 1 - 1) with r by lia. apply rising_fact.
Qed.

Lemma ncr_denom_pos (r : Z) : 0 < ncr_denom r.
Proof.
  destruct (Z.le_gt_cases 0 r) as [Hr|Hr].
  - rewrite ncr_denom_fact by assumption. unfold factZ.
    pose proof (fact_pos (Z.to_nat r)). lia.
  - unfold ncr_denom. rewrite reduce_mul_lprod, range_up.
    replace (Z.to_nat (r + 1 - 1)) with 0%nat by lia. reflexivity.
Qed.

Lemma falling_binom (n k : nat) :
  (k <= n)%nat ->
  falling (Z.of_nat n) k = Z.of_nat (binom n k) * Z.of_nat (fact k).
Proof.
  intros Hk.
  pose proof (falling_fact k n Hk) as Hf.
  pose proof (binom_fact n k Hk) as Hb.
  pose proof (fact_pos (n - k)) as Hp.
  apply Z.mul_cancel_r with (p := Z.of_nat (fact (n - k))); [lia|].
  rewrite Hf, <- Hb. lia.
Qed.

Lemma py_min_spec (a b : Z) : Py.min a b = Z.min a b.
Proof. unfold Py.min. destruct (Z.ltb_spec b a); lia. Qed.

Lemma ncr_binom (n r : Z) :
  0 <= r <= n -> ncr n r = Z.of_nat (binom (Z.to_nat n) (Z.to_nat r)).
Proof.
  intros Hr. unfold ncr. cbv zeta. rewrite py_min_spec.
  set (r' := Z.min r (n - r)).
  assert (Hr' : 0 <= r' <= n) by (unfold r'; lia).
  rewrite ncr_numer_falling, ncr_denom_fact by lia.
  unfold factZ.
  replace n with (Z.of_nat (Z.to_nat n)) at 1 by lia.
  rewrite falling_binom by lia.
  rewrite Z.div_mul by (pose proof (fact_pos (Z.to_nat r')); lia).
  f_equal. unfold r'.
  destruct (Z.min_spec r (n - r)) as [[_ ->]|[_ ->]]; [reflexivity|].
  rewrite (binom_sym (Z.to_nat n) (Z.to_nat r)) by lia.
  f_equal. lia.
Qed.

Lemma ncr_pos (n r : Z) : 0 <= r <= n -> 1 <= ncr n r.
Proof.
  intros H. rewrite ncr_binom by assumption.
  pose proof (binom_pos (Z.to_nat n) (Z.to_nat r) ltac:(lia)). lia.
Qed.

Lemma ncr_mono (n m r : Z) : 0 <= r <= n -> n <= m -> ncr n r <= ncr m r.
Proof.
  intros H Hm. rewrite !ncr_binom by lia.
  pose proof (binom_mono (Z.to_nat n) (Z.to_nat m) (Z.to_nat r) ltac:(lia)). lia.
Qed.

Lemma ncr_one_outside (n r : Z) : r <= 0 \/ n <= r -> ncr n r = 1.
Proof.
  intros H. unfold ncr. cbv zeta. rewrite py_min_spec.
  set (r' := Z.min r (n - r)). assert (Hr' : r' <= 0) by (unfold r'; lia).
  unfold ncr_numer, ncr_denom.
  rewrite range_down_neg by assumption. rewrite range_up.
  replace (Z.to_nat (r' + 1 - 1)) with 0%nat by lia. reflexivity.
Qed.

Lemma ncr_ge_one (n r : Z) : 1 <= ncr n r.
Proof.
  destruct (Z.le_gt_cases r 0) as [H|H]; [rewrite ncr_one_outside; lia|].
  destruct (Z.le_gt_cases n r) as [H'|H']; [rewrite ncr_one_outside; lia|].
  apply ncr_pos. lia.
Qed.





(** C10: for 0 <= r <= n and r' = min(r, n-r), the denominator of the
    floor division in [ncr] is r'! > 0, the numerator is the falling
    product n(n-1)...(n-r'+1), and the denominator divides the numerator
    with remainder zero: the quotient times the denominator gives the
    numerator back. *)
Theorem ncr_division_exact (n r : Z) :
  0 <= r <= n ->
  let r' := Py.min r (n - r) in
  ncr_denom r' = factZ r' /\
  0 < ncr_denom r' /\
  ncr_numer n r' * factZ (n - r') = factZ n /\
  (ncr_numer n r') mod (ncr_denom r') = 0 /\
  ncr n r * ncr_denom r' = ncr_numer n r'.
Proof.
  intros H r'. assert (Hr' : 0 <= r' <= n) by (unfold r'; rewrite py_min_spec; lia).
  assert (Hnum : ncr_numer n r' =
                 Z.of_nat (binom (Z.to_nat n) (Z.to_nat r')) * ncr_denom r').
  { rewrite ncr_numer_falling, ncr_denom_fact by lia. unfold factZ.
    replace n with (Z.of_nat (Z.to_nat n)) at 1 by lia.
    apply falling_binom. lia. }
  pose proof (ncr_denom_pos r') as Hpos.
  repeat split.
  - apply ncr_denom_fact. lia.
  - exact Hpos.
  - rewrite ncr_numer_falling by lia. unfold factZ.
    replace n with (Z.of_nat (Z.to_nat n)) at 1 by lia.
    replace (Z.to_nat (n - r')) with (Z.to_nat n - Z.to_nat r')%nat by lia.
    apply falling_fact. lia.
  - rewrite Hnum. apply Z.mod_mul. lia.
  - unfold ncr. cbv zeta. fold r'. rewrite Hnum at 1.
    rewrite Z.div_mul by lia. symmetry. exact Hnum.
Qed.

Lemma ncr_division_exact_witness :
  0 <= 3 <= 10 /\
  (ncr_numer 10 (Py.min 3 (10 - 3))) mod (ncr_denom (Py.min 3 (10 - 3))) = 0.
Proof.
  assert (H : 0 <= 3 <= 10) by lia.
  split; [exact H|].
  exact (proj1 (proj2 (proj2 (proj2 (ncr_division_exact 10 3 H))))).
Defined.

End NcrCorrect.

(** ** The best-candidate selector *)

Section Selector.

Lemma better_eq_refl (a : Z * Z) : better_eq a a.
Proof. right. lia. Qed.

Lemma better_eq_trans (a b c : Z * Z) :
  better_eq a b -> better_eq b c -> better_eq a c.
Proof. unfold better_eq. lia. Qed.

Lemma select_step_spec (best tp : Z * Z) :
  (select_step best tp = tp \/ select_step best tp = best) /\
  better_eq (select_step best tp) tp /\
  better_eq (select_step best tp) best.
Proof.
  unfold select_step, better_eq. destruct best as [bM bt], tp as [M t]. simpl.
  destruct (Z.ltb_spec t bt) as [Ht|Ht]; simpl.
  - rewrite Z.ltb_irrefl. simpl. repeat split; [now left | lia | lia].
  - destruct (Z.ltb_spec M bM) as [HM|HM], (Z.eqb_spec t bt) as [He|He]; simpl;
      repeat split; try (now left); try (now right); lia.
Qed.

Lemma select_from_spec (lst : list (Z * Z)) (best : Z * Z) :
  In (select_from best lst) (best :: lst) /\
  better_eq (select_from best lst) best /\
  (forall tp, In tp lst -> better_eq (select_from best lst) tp).
Proof.
  revert best. induction lst as [|tp lst IH]; intros best.
  - simpl. repeat split; [now left | apply better_eq_refl | contradiction].
  - unfold select_from in *. simpl fold_left.
    destruct (IH (select_step best tp)) as (Hin & Hb & Hall).
    destruct (select_step_spec best tp) as (Hor & Htp & Hbest).
    repeat split.
    + destruct Hin as [Hin|Hin].
      * rewrite <- Hin. destruct Hor as [->| ->]; simpl; auto.
      * simpl. auto.
    + eapply better_eq_trans; eassumption.
    + intros tp' [<-|Hin'].
      * eapply better_eq_trans; eassumption.
      * apply Hall. assumption.
Qed.

(** C2: for a candidate list whose entries have M <= 504 and tau <= 48,
    the scan from the sentinel (10000, 10000) ends on a pair that is at
    least as good as every candidate (strictly smaller tau, or the same tau
    and an M that is not larger), and, when the list is not empty, that
    pair is one of the candidates. *)
Theorem select_is_lexicographic_minimum (lst : list (Z * Z)) :
  Forall (fun tp => fst tp <= 504 /\ snd tp <= 48) lst ->
  (forall tp, In tp lst ->
     snd (select lst) < snd tp \/
     (snd (select lst) = snd tp /\ fst (select lst) <= fst tp)) /\
  (lst <> [] -> In (select lst) lst).
Proof.
  intros Hb. unfold select.
  destruct (select_from_spec lst sentinel) as (Hin & _ & Hall).
  split; [exact Hall|].
  intros Hne. destruct Hin as [Hs|Hin]; [|exact Hin].
  destruct lst as [|tp lst]; [contradiction|].
  pose proof (Hall tp (or_introl eq_refl)) as Hle.
  rewrite <- Hs in Hle. inversion Hb as [|? ? [_ Ht] _]; subst.
  unfold better_eq, sentinel in Hle. simpl in Hle. lia.
Qed.

Lemma select_is_lexicographic_minimum_witness :
  select [(152, 24); (144, 16); (72, 24); (160, 16)] = (144, 16) /\
  (forall tp, In tp [(152, 24); (144, 16); (72, 24); (160, 16)] ->
     snd (select [(152, 24); (144, 16); (72, 24); (160, 16)]) < snd tp \/
     (snd (select [(152, 24); (144, 16); (72, 24); (160, 16)]) = snd tp /\
      fst (select [(152, 24); (144, 16); (72, 24); (160, 16)]) <= fst tp)).
Proof.
  split; [reflexivity|].
  apply (select_is_lexicographic_minimum [(152, 24); (144, 16); (72, 24); (160, 16)]).
  repeat constructor; simpl; lia.
Defined.

End Selector.

(** ** Binary64 rounding: digits and right shifts *)

Section Digits.

Lemma digits2_size (p : positive) : digits2_pos p = Pos.size p.
Proof. induction p; simpl; congruence. Qed.

Lemma Zdigits2_nonneg (m : Z) : 0 <= Zdigits2 m.
Proof. destruct m; simpl; lia. Qed.

Lemma Zdigits2_bounds (m : Z) :
  0 < m -> 2 ^ (Zdigits2 m - 1) <= m < 2 ^ Zdigits2 m.
Proof.
  destruct m as [|p|p]; try lia. intros _. simpl Zdigits2.
  rewrite digits2_size.
  pose proof (Pos.size_gt p) as Hgt. pose proof (Pos.size_le p) as Hle.
  apply Pos2Z.pos_lt_pos in Hgt. apply Pos2Z.pos_le_pos in Hle.
  rewrite Pos2Z.inj_pow in Hgt, Hle.
  split; [|exact Hgt].
  replace (Z.pos (Pos.size p)) with (Z.succ (Z.pos (Pos.size p) - 1)) in Hle by lia.
  rewrite Z.pow_succ_r in Hle by lia. lia.
Qed.

Lemma Zdigits2_le (m k : Z) : 0 <= k -> 0 <= m < 2 ^ k -> Zdigits2 m <= k.
Proof.
  intros Hk [H0 Hm]. destruct (Z.eq_dec m 0) as [->|Hne]; [simpl; lia|].
  destruct (Zdigits2_bounds m ltac:(lia)) as [Hlo _].
  destruct (Z.le_gt_cases (Zdigits2 m) k) as [|Hgt]; [assumption|exfalso].
  assert (2 ^ k <= 2 ^ (Zdigits2 m - 1)) by (apply Z.pow_le_mono_r; lia).
  lia.
Qed.

Lemma Zdigits2_ge (m k : Z) : 0 <= k -> 2 ^ k <= m -> k + 1 <= Zdigits2 m.
Proof.
  intros Hk Hm. assert (0 < m) by (pose proof (Z.pow_pos_nonneg 2 k); lia).
  destruct (Zdigits2_bounds m ltac:(lia)) as [_ Hhi].
  destruct (Z.le_gt_cases (k + 1) (Zdigits2 m)) as [|Hgt]; [assumption|exfalso].
  assert (2 ^ Zdigits2 m <= 2 ^ k) by (apply Z.pow_le_mono_r; lia).
  lia.
Qed.

Lemma Zdigits2_pow2 (k : Z) : 0 <= k -> Zdigits2 (2 ^ k) = k + 1.
Proof.
  intros Hk. pose proof (Z.pow_pos_nonneg 2 k ltac:(lia) Hk) as Hp.
  apply Z.le_antisymm.
  - apply Zdigits2_le; [lia|]. rewrite Z.pow_add_r by lia. lia.
  - apply Zdigits2_ge; lia.
Qed.

End Digits.

Section Shifts.

Lemma shr_1_m (r : shr_record) : 0 <= shr_m r -> shr_m (shr_1 r) = shr_m r / 2.
Proof.
  destruct r as [m r s]. cbn [shr_m]. intros Hm.
  destruct m as [|[p|p|]|p]; unfold shr_1; cbn [shr_m]; try reflexivity; try lia.
  - apply Z.div_unique with (r := 1); lia.
  - apply Z.div_unique with (r := 0); lia.
Qed.

Lemma pow2_xO (p : positive) : 2 ^ Z.pos p~0 = 2 ^ Z.pos p * 2 ^ Z.pos p.
Proof. rewrite <- Z.pow_add_r by lia. f_equal. lia. Qed.

Lemma pow2_xI (p : positive) : 2 ^ Z.pos p~1 = 2 * (2 ^ Z.pos p * 2 ^ Z.pos p).
Proof.
  rewrite <- Z.pow_add_r, <- Z.pow_succ_r by lia. f_equal. lia.
Qed.

Lemma iter_shr_1_m (p : positive) : forall r : shr_record,
  0 <= shr_m r -> shr_m (iter_pos shr_1 p r) = shr_m r / 2 ^ Z.pos p.
Proof.
  assert (Hstep : forall r, 0 <= shr_m r -> 0 <= shr_m (shr_1 r)).
  { intros r Hr. rewrite shr_1_m by assumption. apply Z.div_pos; lia. }
  assert (Hpow : forall q : positive, 0 < 2 ^ Z.pos q)
    by (intros q; apply Z.pow_pos_nonneg; lia).
  induction p as [p IH|p IH|]; intros r Hr; cbn [iter_pos].
  - assert (H1 : 0 <= shr_m (iter_pos shr_1 p (shr_1 r))).
    { rewrite IH by auto. apply Z.div_pos; auto. }
    rewrite IH, IH, shr_1_m by auto.
    rewrite !Z.div_div by (pose proof (Hpow p); lia).
    rewrite pow2_xI. reflexivity.
  - assert (H1 : 0 <= shr_m (iter_pos shr_1 p r)).
    { rewrite IH by auto. apply Z.div_pos; auto. }
    rewrite IH, IH by auto.
    rewrite Z.div_div by (pose proof (Hpow p); lia).
    rewrite pow2_xO. reflexivity.
  - rewrite shr_1_m by assumption. reflexivity.
Qed.

(** Shifting a power of two out of an exact record stays exact. *)
Lemma iter_shr_1_pow2 (p : positive) : forall k : Z,
  Z.pos p <= k ->
  iter_pos shr_1 p (Build_shr_record (2 ^ k) false false) =
  Build_shr_record (2 ^ (k - Z.pos p)) false false.
Proof.
  assert (Hone : forall k, 1 <= k ->
            shr_1 (Build_shr_record (2 ^ k) false false) =
            Build_shr_record (2 ^ (k - 1)) false false).
  { intros k Hk. replace k with (Z.succ (k - 1)) at 1 by lia.
    rewrite Z.pow_succ_r by lia.
    pose proof (Z.pow_pos_nonneg 2 (k - 1) ltac:(lia) ltac:(lia)) as Hp.
    destruct (2 ^ (k - 1)) as [|q|q]; try lia. reflexivity. }
  induction p as [p IH|p IH|]; intros k Hk; cbn [iter_pos].
  - rewrite Hone, IH, IH by lia. do 2 f_equal. lia.
  - rewrite IH, IH by lia. do 2 f_equal. lia.
  - apply Hone. lia.
Qed.

End Shifts.

(** ** Binary64 rounding: results at most one, results at least one *)

Section RoundingBounds.

Lemma fexp64_eq (e : Z) : fexp64 e = Z.max (e - 53) (-1074).
Proof. reflexivity. Qed.

Lemma shr_record_of_loc_m (m : Z) (l : location) : shr_m (shr_record_of_loc m l) = m.
Proof. destruct l as [|[| |]]; reflexivity. Qed.

Lemma shr_fexp_spec (m e : Z) (l : location) :
  0 <= m ->
  snd (shr_fexp Float.prec Float.emax m e l) = Z.max e (fexp64 (Zdigits2 m + e)) /\
  shr_m (fst (shr_fexp Float.prec Float.emax m e l)) =
    m / 2 ^ (Z.max e (fexp64 (Zdigits2 m + e)) - e).
Proof.
  intros Hm. unfold shr_fexp, shr.
  destruct (fexp64 (Zdigits2 m + e) - e) as [|p|p] eqn:Hn; cbn [fst snd].
  - rewrite shr_record_of_loc_m. replace (Z.max e _ - e) with 0 by lia.
    rewrite Z.div_1_r. split; lia.
  - rewrite iter_shr_1_m by (rewrite shr_record_of_loc_m; assumption).
    rewrite shr_record_of_loc_m.
    replace (Z.max e _ - e) with (Z.pos p) by lia. split; lia.
  - rewrite shr_record_of_loc_m. replace (Z.max e _ - e) with 0 by lia.
    rewrite Z.div_1_r. split; lia.
Qed.

Lemma round_nearest_even_bounds (m : Z) (l : location) :
  m <= round_nearest_even m l <= m + 1.
Proof.
  unfold round_nearest_even. destruct l as [|[| |]]; try lia.
  destruct (Z.even m); lia.
Qed.

Lemma pow2_pos (k : Z) : 0 <= k -> 0 < 2 ^ k.
Proof. intros. apply Z.pow_pos_nonneg; lia. Qed.

Lemma pow2_split (a b : Z) : 0 <= b <= a -> 2 ^ a = 2 ^ (a - b) * 2 ^ b.
Proof. intros H. rewrite <- Z.pow_add_r by lia. f_equal. lia. Qed.

Lemma shr_fexp_one (e : Z) :
  e <= -53 ->
  shr_fexp Float.prec Float.emax (2 ^ (- e)) e loc_Exact =
  (Build_shr_record (2 ^ 52) false false, -52).
Proof.
  intros He. unfold shr_fexp. rewrite Zdigits2_pow2 by lia.
  replace (- e + 1 + e) with 1 by lia. rewrite fexp64_eq.
  replace (Z.max (1 - 53) (-1074)) with (-52) by lia.
  destruct (-52 - e) as [|p|p] eqn:Hn; try lia.
  unfold shr, shr_record_of_loc. rewrite iter_shr_1_pow2 by lia.
  f_equal; [|lia]. do 2 f_equal. lia.
Qed.

Lemma binary_round_aux_le_one (q e : Z) (l : location) :
  0 <= q -> e <= -53 ->
  e <= fexp64 (Zdigits2 q + e) ->
  q <= 2 ^ (- e) ->
  (q = 2 ^ (- e) -> l = loc_Exact) ->
  le_one (binary_round_aux Float.prec Float.emax false q e l).
Proof.
  intros Hq He Hprec Hle Hex.
  destruct (Z.eq_dec q (2 ^ (- e))) as [Heq|Hne].
  - rewrite (Hex Heq), Heq. unfold binary_round_aux.
    rewrite shr_fexp_one by assumption. vm_compute. split; discriminate.
  - assert (Hlt : q < 2 ^ (- e)) by lia. clear Hle Hne Hex.
    unfold binary_round_aux.
    destruct (shr_fexp_spec q e l Hq) as [Hs1 Hm1].
    destruct (shr_fexp Float.prec Float.emax q e l) as [r1 e1].
    cbn [fst snd] in Hs1, Hm1.
    set (m2 := round_nearest_even (shr_m r1) (loc_of_shr_record r1)).
    pose proof (round_nearest_even_bounds (shr_m r1) (loc_of_shr_record r1)) as Hm2.
    fold m2 in Hm2.
    assert (Hd : Zdigits2 q + e <= 0).
    { pose proof (Zdigits2_le q (- e) ltac:(lia) ltac:(lia)). lia. }
    assert (He1 : e1 = fexp64 (Zdigits2 q + e)) by lia.
    assert (He1b : -1074 <= e1 <= -53) by (rewrite fexp64_eq in He1; lia).
    assert (Hsh : 0 <= e1 - e) by lia.
    rewrite <- Hs1 in Hm1.
    pose proof (pow2_pos (e1 - e) Hsh) as Hp.
    assert (Hm1lo : 0 <= shr_m r1) by (rewrite Hm1; apply Z.div_pos; lia).
    assert (Hm1v : shr_m r1 < 2 ^ (- e1)).
    { rewrite Hm1. apply Z.div_lt_upper_bound; [lia|].
      rewrite (pow2_split (- e) (- e1)) in Hlt by lia.
      replace (- e - - e1) with (e1 - e) in Hlt by lia. lia. }
    assert (Hm1p : shr_m r1 < 2 ^ 53).
    { rewrite Hm1. apply Z.div_lt_upper_bound; [lia|].
      rewrite <- Z.pow_add_r by lia.
      destruct (Z.eq_dec q 0) as [->|Hq0].
      - apply pow2_pos. lia.
      - destruct (Zdigits2_bounds q ltac:(lia)) as [_ Hhi].
        eapply Z.lt_le_trans; [exact Hhi|].
        apply Z.pow_le_mono_r; [lia|]. rewrite fexp64_eq in He1. lia. }
    destruct (shr_fexp_spec m2 e1 loc_Exact ltac:(lia)) as [Hs2 Hm3].
    destruct (shr_fexp Float.prec Float.emax m2 e1 loc_Exact) as [r2 e2].
    cbn [fst snd] in Hs2, Hm3.
    destruct (Z.eq_dec m2 (2 ^ 53)) as [Hbig|Hsmall].
    + rewrite Hbig in Hs2, Hm3. rewrite Zdigits2_pow2 in Hs2, Hm3 by lia.
      rewrite fexp64_eq in Hs2, Hm3.
      replace (Z.max e1 (Z.max (53 + 1 + e1 - 53) (-1074)) - e1) with 1 in Hm3 by lia.
      change (2 ^ 53 / 2 ^ 1) with 4503599627370496 in Hm3.
      rewrite Hm3. cbn [le_one].
      replace (e2 <=? Float.emax - Float.prec) with true
        by (symmetry; apply Z.leb_le; unfold Float.emax, Float.prec; lia).
      cbn [le_one]. split; [lia|].
      change 4503599627370496 with (2 ^ 52).
      apply Z.pow_le_mono_r; lia.
    + assert (Hm2p : m2 < 2 ^ 53) by lia.
      pose proof (Zdigits2_le m2 53 ltac:(lia) ltac:(lia)) as Hd2.
      rewrite fexp64_eq in Hs2, Hm3.
      replace (Z.max e1 (Z.max (Zdigits2 m2 + e1 - 53) (-1074))) with e1 in Hs2, Hm3 by lia.
      rewrite Z.sub_diag, Z.div_1_r in Hm3. subst e2. rewrite Hm3.
      destruct m2 as [|p|p]; try lia; cbn [le_one]; [exact I|].
      replace (e1 <=? Float.emax - Float.prec) with true
        by (symmetry; apply Z.leb_le; unfold Float.emax, Float.prec; lia).
      cbn [le_one]. split; lia.
Qed.

Lemma shr_fexp_ge_one (m e : Z) (l : location) :
  0 < m -> (0 <= e \/ 2 ^ (- e) <= m) ->
  0 < shr_m (fst (shr_fexp Float.prec Float.emax m e l)) /\
  (0 <= snd (shr_fexp Float.prec Float.emax m e l) \/
   2 ^ (- snd (shr_fexp Float.prec Float.emax m e l)) <=
   shr_m (fst (shr_fexp Float.prec Float.emax m e l))).
Proof.
  intros Hm Hv.
  destruct (shr_fexp_spec m e l ltac:(lia)) as [Hs Hq].
  rewrite Hs, Hq. clear Hs Hq. rewrite fexp64_eq.
  set (d := Zdigits2 m).
  destruct (Zdigits2_bounds m Hm) as [Hlo Hhi]. fold d in Hlo, Hhi.
  assert (Hd : 1 <= d + e).
  { destruct Hv as [He|He].
    - pose proof (Zdigits2_ge m 0 ltac:(lia) ltac:(simpl; lia)). fold d in H. lia.
    - destruct (Z.le_gt_cases 0 e) as [He0|He0].
      + pose proof (Zdigits2_ge m 0 ltac:(lia) ltac:(simpl; lia)). fold d in H. lia.
      + pose proof (Zdigits2_ge m (- e) ltac:(lia) He). fold d in H. lia. }
  set (e' := Z.max e (Z.max (d + e - 53) (-1074))).
  assert (Hd1 : 1 <= d).
  { pose proof (Zdigits2_ge m 0 ltac:(lia) ltac:(simpl; lia)) as H. fold d in H. lia. }
  assert (Hsh : 0 <= e' - e <= d - 1) by (unfold e'; lia).
  pose proof (pow2_pos (e' - e) ltac:(lia)) as Hp.
  assert (Hge : 2 ^ (e' - e) <= m).
  { eapply Z.le_trans; [|exact Hlo]. apply Z.pow_le_mono_r; lia. }
  split.
  - apply Z.div_str_pos. lia.
  - destruct (Z.le_gt_cases 0 e') as [He'|He']; [now left|right].
    destruct Hv as [He|He]; [unfold e' in He'; lia|].
    apply Z.div_le_lower_bound; [lia|].
    rewrite <- Z.pow_add_r by lia.
    replace (e' - e + - e') with (- e) by lia. exact He.
Qed.

Lemma binary_round_aux_ge_one (m e : Z) (l : location) :
  0 < m -> (0 <= e \/ 2 ^ (- e) <= m) ->
  binary_round_aux Float.prec Float.emax false m e l = S754_infinity false \/
  ge_one (binary_round_aux Float.prec Float.emax false m e l).
Proof.
  intros Hm Hv. unfold binary_round_aux.
  destruct (shr_fexp_ge_one m e l Hm Hv) as [Hp1 Hv1].
  destruct (shr_fexp Float.prec Float.emax m e l) as [r1 e1].
  cbn [fst snd] in Hp1, Hv1.
  pose proof (round_nearest_even_bounds (shr_m r1) (loc_of_shr_record r1)) as Hm2.
  set (m2 := round_nearest_even (shr_m r1) (loc_of_shr_record r1)) in *.
  destruct (shr_fexp_ge_one m2 e1 loc_Exact ltac:(lia) ltac:(lia)) as [Hp2 Hv2].
  destruct (shr_fexp Float.prec Float.emax m2 e1 loc_Exact) as [r2 e2].
  cbn [fst snd] in Hp2, Hv2.
  destruct (shr_m r2) as [|p|p]; try lia.
  destruct (e2 <=? Float.emax - Float.prec); [right|left; reflexivity].
  exact Hv2.
Qed.

Lemma of_int_ge_one (c : Z) :
  1 <= c ->
  Float.of_int c = Raise OverflowError \/
  exists f, Float.of_int c = Ok f /\ ge_one f.
Proof.
  intros Hc. destruct c as [|p|p]; try lia.
  unfold Float.of_int, binary_normalize, binary_round, shl_align.
  set (ex' := fexp64 (Z.pos (digits2_pos p) + 0)).
  assert (Hr : forall mz ez, (0 <= ez \/ 2 ^ (- ez) <= Z.pos mz) ->
     match binary_round_aux Float.prec Float.emax false (Z.pos mz) ez loc_Exact with
     | S754_infinity _ => Raise OverflowError
     | f => Ok f
     end = Raise OverflowError \/
     exists f,
       match binary_round_aux Float.prec Float.emax false (Z.pos mz) ez loc_Exact with
       | S754_infinity _ => Raise OverflowError
       | f => Ok f
       end = Ok f /\ ge_one f).
  { intros mz ez Hv.
    destruct (binary_round_aux_ge_one (Z.pos mz) ez loc_Exact ltac:(lia) Hv) as [->|Hg];
      [now left|].
    destruct (binary_round_aux Float.prec Float.emax false (Z.pos mz) ez loc_Exact)
      as [s|s|  |s m e]; try contradiction.
    right. eexists; split; [reflexivity|exact Hg]. }
  destruct (ex' - 0) as [|d|d] eqn:Hd.
  - apply Hr. left; lia.
  - apply Hr. left; lia.
  - apply Hr. right.
    change (Pos.iter xO p d) with (shift_pos d p).
    rewrite shift_pos_correct. change (Z.pow_pos 2 d) with (2 ^ Z.pos d).
    replace (- ex') with (Z.pos d) by lia.
    pose proof (pow2_pos (Z.pos d) ltac:(lia)). nia.
Qed.

Lemma binary_round_aux_sign (m e : Z) (l : location) :
  binary_round_aux Float.prec Float.emax true m e l =
  SFopp (binary_round_aux Float.prec Float.emax false m e l).
Proof.
  unfold binary_round_aux.
  destruct (shr_fexp Float.prec Float.emax m e l) as [r1 e1].
  destruct (shr_fexp Float.prec Float.emax _ e1 loc_Exact) as [r2 e2].
  destruct (shr_m r2); try reflexivity.
  destruct (e2 <=? Float.emax - Float.prec); reflexivity.
Qed.



Lemma new_location_zero (nb : Z) : new_location nb 0 = loc_Exact.
Proof. unfold new_location. destruct (Z.even nb); reflexivity. Qed.

Lemma SFdiv_finite_le_one (m1 m2 : positive) (e1 e2 : Z) :
  val_le (Z.pos m1) e1 (Z.pos m2) e2 ->
  le_one (SFdiv Float.prec Float.emax (S754_finite false m1 e1) (S754_finite false m2 e2)).
Proof.
  unfold val_le. intros Hv.
  unfold SFdiv, SFdiv_core_binary. cbv zeta.
  set (d1 := Zdigits2 (Z.pos m1)). set (d2 := Zdigits2 (Z.pos m2)).
  destruct (Zdigits2_bounds (Z.pos m1) ltac:(lia)) as [Hlo1 Hhi1].
  destruct (Zdigits2_bounds (Z.pos m2) ltac:(lia)) as [Hlo2 Hhi2].
  fold d1 in Hlo1, Hhi1. fold d2 in Hlo2, Hhi2.
  assert (Hd1 : 1 <= d1) by (unfold d1; simpl; lia).
  assert (Hd2 : 1 <= d2) by (unfold d2; simpl; lia).
  set (k := Z.min e1 e2) in Hv.
  assert (HD : d1 + e1 - (d2 + e2) <= 0).
  { destruct (Z.le_gt_cases (d1 + e1 - (d2 + e2)) 0) as [|Hgt]; [assumption|exfalso].
    assert (H1 : 2 ^ (d2 + (e2 - k)) <= 2 ^ (d1 - 1 + (e1 - k)))
      by (apply Z.pow_le_mono_r; lia).
    rewrite !Z.pow_add_r in H1 by lia.
    pose proof (pow2_pos (e1 - k) ltac:(lia)). pose proof (pow2_pos (e2 - k) ltac:(lia)).
    nia. }
  set (e' := Z.min (fexp64 (d1 + e1 - (d2 + e2))) (e1 - e2)).
  assert (He' : e' <= -53) by (unfold e'; rewrite fexp64_eq; lia).
  assert (He'' : e' <= fexp64 (d1 + e1 - (d2 + e2))) by (unfold e'; lia).
  set (s := e1 - e2 - e').
  assert (Hs : 0 <= s) by (unfold s, e'; lia).
  set (m' := match s with
             | 0 => Z.pos m1
             | Z.pos _ => Z.shiftl (Z.pos m1) s
             | Z.neg _ => 0
             end).
  assert (Hm' : m' = Z.pos m1 * 2 ^ s).
  { unfold m'. destruct s as [|p|p] eqn:Es; try lia.
    rewrite Z.shiftl_mul_pow2 by lia. reflexivity. }
  clearbody m'.
  pose proof (pow2_pos s Hs) as Hps.
  pose proof (pow2_pos (- e') ltac:(lia)) as Hpe.
  assert (Hup : m' <= Z.pos m2 * 2 ^ (- e')).
  { rewrite Hm'. destruct (Z.le_gt_cases e1 e2) as [Hle|Hgt].
    - replace k with e1 in Hv by (unfold k; lia).
      rewrite Z.sub_diag, Z.mul_1_r in Hv.
      replace (- e') with (e2 - e1 + s) by (unfold s; lia).
      rewrite Z.pow_add_r by lia. nia.
    - replace k with e2 in Hv by (unfold k; lia).
      rewrite Z.sub_diag, Z.mul_1_r in Hv.
      replace s with (e1 - e2 + - e') by (unfold s; lia).
      rewrite Z.pow_add_r by lia.
      pose proof (pow2_pos (e1 - e2) ltac:(lia)). nia. }
  destruct (Z.div_eucl m' (Z.pos m2)) as [q r] eqn:Hqr.
  assert (Hq : q = m' / Z.pos m2) by (unfold Z.div; rewrite Hqr; reflexivity).
  assert (Hr : r = m' mod Z.pos m2) by (unfold Z.modulo; rewrite Hqr; reflexivity).
  pose proof (Z.div_mod m' (Z.pos m2) ltac:(lia)) as Hdm.
  pose proof (Z.mod_pos_bound m' (Z.pos m2) ltac:(lia)) as Hmb.
  rewrite <- Hq, <- Hr in Hdm. rewrite <- Hr in Hmb.
  assert (Hq0 : 0 <= q) by (rewrite Hq; apply Z.div_pos; lia).
  assert (Hqle : q <= 2 ^ (- e')).
  { rewrite Hq. apply Z.div_le_upper_bound; lia. }
  cbn [xorb].
  apply binary_round_aux_le_one; try assumption.
  - (* enough digits in the quotient *)
    assert (Hdq : d1 + e1 - (d2 + e2) <= Zdigits2 q + e').
    { pose proof (Zdigits2_nonneg q).
      destruct (Z.le_gt_cases (d1 - d2 + s) 0) as [|Hpos]; [unfold s in *; lia|].
      assert (Hge : 2 ^ (d1 - d2 + s - 1) <= q).
      { rewrite Hq. apply Z.div_le_lower_bound; [lia|].
        rewrite Hm'.
        assert (H1 : 2 ^ (d1 - d2 + s - 1) * 2 ^ d2 = 2 ^ (d1 - 1) * 2 ^ s).
        { rewrite <- !Z.pow_add_r by lia. f_equal. lia. }
        pose proof (pow2_pos (d1 - d2 + s - 1) ltac:(lia)). nia. }
      pose proof (Zdigits2_ge q (d1 - d2 + s - 1) ltac:(lia) Hge). unfold s in *. lia. }
    rewrite fexp64_eq in *. lia.
  - intros Heq. replace r with 0 by nia. apply new_location_zero.
Qed.

Lemma int_truediv_le_one (a b : Z) :
  1 <= a <= b -> exists d, Float.int_truediv a b = Ok d /\ le_one d.
Proof.
  intros [Ha Hb]. unfold Float.int_truediv.
  destruct (Z.eqb_spec b 0) as [|_]; [lia|].
  destruct a as [|pa|pa]; try lia. destruct b as [|pb|pb]; try lia.
  cbn [Float.exact].
  assert (Hv : val_le (Z.pos pa) 0 (Z.pos pb) 0) by (unfold val_le; simpl; lia).
  pose proof (SFdiv_finite_le_one pa pb 0 0 Hv) as Hle.
  destruct (SFdiv Float.prec Float.emax (S754_finite false pa 0) (S754_finite false pb 0))
    as [sg|sg| |sg m e]; try contradiction; eexists; split; try reflexivity; exact Hle.
Qed.

Lemma div_eucl_pair (a b : Z) : Z.div_eucl a b = (a / b, a mod b).
Proof. unfold Z.div, Z.modulo. destruct (Z.div_eucl a b). reflexivity. Qed.


Lemma le_one_ge_one_val_le (m1 m2 : positive) (e1 e2 : Z) :
  le_one (S754_finite false m1 e1) -> ge_one (S754_finite false m2 e2) ->
  val_le (Z.pos m1) e1 (Z.pos m2) e2.
Proof.
  cbn [le_one ge_one]. unfold val_le. intros [He1 Hm1] Hg.
  pose proof (pow2_pos (- e1) ltac:(lia)) as Hp1.
  destruct (Z.le_gt_cases e1 e2) as [Hle|Hgt].
  - replace (Z.min e1 e2) with e1 by lia. rewrite Z.sub_diag, Z.mul_1_r.
    pose proof (pow2_pos (e2 - e1) ltac:(lia)) as Hp.
    destruct Hg as [Hg|Hg].
    + assert (2 ^ (- e1) <= 2 ^ (e2 - e1)) by (apply Z.pow_le_mono_r; lia). nia.
    + destruct (Z.le_gt_cases 0 e2) as [He2|He2].
      * assert (2 ^ (- e1) <= 2 ^ (e2 - e1)) by (apply Z.pow_le_mono_r; lia). nia.
      * rewrite (pow2_split (- e1) (e2 - e1)) in Hm1 by lia.
        replace (- e1 - (e2 - e1)) with (- e2) in Hm1 by lia. nia.
  - replace (Z.min e1 e2) with e2 by lia. rewrite Z.sub_diag, Z.mul_1_r.
    destruct Hg as [Hg|Hg]; [lia|].
    pose proof (pow2_pos (e1 - e2) ltac:(lia)) as Hp.
    rewrite (pow2_split (- e2) (e1 - e2)) in Hg by lia.
    replace (- e2 - (e1 - e2)) with (- e1) in Hg by lia. nia.
Qed.

Lemma truediv_int_le_one (d : Float.float) (c : Z) :
  le_one d -> 1 <= c ->
  Float.truediv_int d c = Raise OverflowError \/
  exists e, Float.truediv_int d c = Ok e /\ le_one e.
Proof.
  intros Hd Hc. unfold Float.truediv_int.
  destruct (of_int_ge_one c Hc) as [->|(fc & -> & Hg)]; [now left|right].
  cbn [bind].
  destruct fc as [sg|sg| |[|] m2 e2]; try contradiction.
  eexists; split; [reflexivity|].
  destruct d as [[|]|sg| |[|] m1 e1]; try contradiction.
  - exact I.
  - apply SFdiv_finite_le_one. apply le_one_ge_one_val_le; assumption.
Qed.

Lemma of_int_neg (p : positive) :
  Float.of_int (Z.neg p) =
  match Float.of_int (Z.pos p) with
  | Ok f => Ok (SFopp f)
  | r => r
  end.
Proof.
  unfold Float.of_int, binary_normalize, binary_round.
  destruct (shl_align p 0 _) as [mz ez].
  rewrite binary_round_aux_sign.
  destruct (binary_round_aux Float.prec Float.emax false (Z.pos mz) ez loc_Exact)
    as [s|s| |s m e]; reflexivity.
Qed.

Lemma SFdiv_neg_divisor (d : spec_float) (m : positive) (e : Z) :
  nonneg d ->
  SFdiv Float.prec Float.emax d (S754_finite true m e) =
  SFopp (SFdiv Float.prec Float.emax d (S754_finite false m e)).
Proof.
  destruct d as [[|]|s| |[|] m1 e1]; try contradiction; intros _; [reflexivity|].
  unfold SFdiv.
  destruct (SFdiv_core_binary Float.prec Float.emax (Z.pos m1) e1 (Z.pos m) e)
    as [[mz ez] lz].
  cbn [xorb]. apply binary_round_aux_sign.
Qed.

Lemma le_one_finite (f : spec_float) : le_one f -> finite_float f.
Proof. destruct f as [[|]|s| |[|] m e]; simpl; tauto. Qed.

Lemma finite_opp (f : spec_float) : finite_float f -> finite_float (SFopp f).
Proof. destruct f; simpl; tauto. Qed.

Lemma truediv_int_finite (d : Float.float) (c : Z) :
  le_one d -> c <> 0 ->
  Float.truediv_int d c = Raise OverflowError \/
  exists e, Float.truediv_int d c = Ok e /\ finite_float e.
Proof.
  intros Hd Hc. destruct c as [|p|p]; [lia| |].
  - destruct (truediv_int_le_one d (Z.pos p) Hd ltac:(lia)) as [->|(e & -> & He)];
      [now left|right].
    exists e. split; [reflexivity|apply le_one_finite; assumption].
  - pose proof (truediv_int_le_one d (Z.pos p) Hd ltac:(lia)) as Hpos.
    unfold Float.truediv_int in *. rewrite of_int_neg.
    destruct (of_int_ge_one (Z.pos p) ltac:(lia)) as [Hf|(fc & Hf & Hg)];
      rewrite Hf in *; [now left|right].
    cbn [bind] in *.
    destruct fc as [sg|sg| |[|] m2 e2]; try contradiction. cbn [SFopp negb].
    eexists; split; [reflexivity|].
    rewrite SFdiv_neg_divisor
      by (destruct d as [[|]|s| |[|] m1 e1]; try contradiction; exact I).
    apply finite_opp.
    destruct Hpos as [Hpos|(e & He & Hle)]; [discriminate|].
    injection He as <-. apply le_one_finite. assumption.
Qed.

Lemma ncr_pair_bounds (M tau rho : Z) :
  M - tau + 1 <= rho <= M -> 1 <= ncr rho (M - tau) <= ncr M (M - tau).
Proof.
  intros Hrho. split; [apply ncr_ge_one|].
  destruct (Z.le_gt_cases 0 (M - tau)) as [H|H].
  - apply ncr_mono; lia.
  - rewrite !ncr_one_outside by lia. lia.
Qed.

Lemma err_sg_le_one (M tau n rho : Z) :
  0 < tau -> 1 <= n -> M - tau + 1 <= rho <= M ->
  exists e, err_sg M tau n rho = Ok e /\ le_one e.
Proof.
  intros Ht Hn Hrho. unfold err_sg, int_pow, ratio. cbv zeta.
  destruct (Z.ltb_spec (rho - M + tau) 0) as [|_]; [lia|]. cbn [bind].
  pose proof (ncr_pair_bounds M tau rho Hrho) as Hab.
  assert (Hc : 1 <= n ^ (rho - M + tau)).
  { pose proof (Z.pow_pos_nonneg n (rho - M + tau) ltac:(lia) ltac:(lia)). lia. }
  destruct (int_truediv_le_one _ _ Hab) as (d & -> & Hd). cbn [bind truediv_num].
  destruct (truediv_int_le_one d _ Hd Hc) as [->|(e & -> & He)].
  - exists Float.zero. split; [reflexivity|exact I].
  - exists e. split; [reflexivity|exact He].
Qed.

Lemma err_sg_finite (M tau n rho : Z) :
  0 < tau -> n <> 0 -> M - tau + 1 <= rho <= M ->
  exists e, err_sg M tau n rho = Ok e /\ finite_float e.
Proof.
  intros Ht Hn Hrho. unfold err_sg, int_pow, ratio. cbv zeta.
  destruct (Z.ltb_spec (rho - M + tau) 0) as [|_]; [lia|]. cbn [bind].
  pose proof (ncr_pair_bounds M tau rho Hrho) as Hab.
  assert (Hc : n ^ (rho - M + tau) <> 0) by (apply Z.pow_nonzero; lia).
  destruct (int_truediv_le_one _ _ Hab) as (d & -> & Hd). cbn [bind truediv_num].
  destruct (truediv_int_finite d _ Hd Hc) as [->|(e & -> & He)].
  - exists Float.zero. split; [reflexivity|exact I].
  - exists e. split; [reflexivity|exact He].
Qed.

End RoundingBounds.

(** ** The order on the floats the estimator produces *)

Section FloatOrder.

Lemma le_one_nonneg (f : spec_float) : le_one f -> nonneg f.
Proof. destruct f as [[|]|sg| |[|] m e]; simpl; tauto. Qed.

Lemma leb_fle (x y : spec_float) :
  nonneg x -> nonneg y -> (Float.leb x y = true <-> fle x y).
Proof.
  unfold Float.leb, SFleb.
  destruct x as [[|]|sx| |[|] m1 e1], y as [[|]|sy| |[|] m2 e2];
    cbn [nonneg fle SFcompare]; try tauto; intros _ _.
  - split; [discriminate|tauto].
  - destruct (Z.compare_spec e1 e2); try (split; [intros _|reflexivity]; lia).
    + change (Pos.compare_cont Eq m1 m2) with (Pos.compare m1 m2).
      destruct (Pos.compare_spec m1 m2); split; try (intros _; lia);
        try reflexivity; try discriminate. lia.
    + split; [discriminate|lia].
Qed.

Lemma ltb_fle (x y : spec_float) :
  nonneg x -> nonneg y -> (Float.ltb x y = true <-> ~ fle y x).
Proof.
  unfold Float.ltb, SFltb.
  destruct x as [[|]|sx| |[|] m1 e1], y as [[|]|sy| |[|] m2 e2];
    cbn [nonneg fle SFcompare]; try tauto; intros _ _.
  - split; [discriminate|tauto].
  - split; [discriminate|tauto].
  - destruct (Z.compare_spec e1 e2); try (split; [intros _|reflexivity]; lia).
    + change (Pos.compare_cont Eq m1 m2) with (Pos.compare m1 m2).
      destruct (Pos.compare_spec m1 m2); split; try (intros _; lia);
        try reflexivity; try discriminate; lia.
    + split; [discriminate|lia].
Qed.

Lemma fle_refl (x : spec_float) : nonneg x -> fle x x.
Proof. destruct x as [[|]|sx| |[|] m1 e1]; simpl; try tauto. intros _. lia. Qed.

Lemma fle_trans (x y z : spec_float) : fle x y -> fle y z -> fle x z.
Proof.
  destruct x as [sx|sx| |sx m1 e1], y as [sy|sy| |sy m2 e2], z as [sz|sz| |sz m3 e3];
    simpl; try tauto. lia.
Qed.

Lemma fle_total (x y : spec_float) : nonneg x -> nonneg y -> fle x y \/ fle y x.
Proof.
  destruct x as [[|]|sx| |[|] m1 e1], y as [[|]|sy| |[|] m2 e2]; simpl; try tauto.
  intros _ _. lia.
Qed.

Lemma fle_dec (x y : spec_float) : fle x y \/ ~ fle x y.
Proof.
  destruct x as [sx|sx| |sx m1 e1], y as [sy|sy| |sy m2 e2]; simpl; try tauto. lia.
Qed.

Lemma fle_zero_inv (x : spec_float) : nonneg x -> fle x Float.zero -> x = Float.zero.
Proof. destruct x as [[|]|sx| |[|] m1 e1]; simpl; tauto. Qed.

Lemma le_one_leb (f : spec_float) :
  le_one f -> Float.leb Float.zero f = true /\ Float.leb f Float.one = true.
Proof.
  intros H. pose proof (le_one_nonneg f H) as Hn. split.
  - apply leb_fle; [exact I|exact Hn|]. destruct f; exact I.
  - apply leb_fle; [exact Hn|exact I|].
    destruct f as [[|]|sg| |[|] m e]; try contradiction; [exact I|].
    cbn [le_one] in H. unfold Float.one. cbn [fle]. destruct H as [He Hm].
    destruct (Z.eq_dec e (-52)) as [->|]; [right|left; lia].
    split; [reflexivity|]. exact Hm.
Qed.

Lemma le_one_value (f : spec_float) :
  le_one f -> exists q, Float.value f = Some q /\ (0 <= q)%Q /\ (q <= 1)%Q.
Proof.
  intros H. destruct f as [[|]|sg| |[|] m e]; try contradiction.
  - exists (0 # 1)%Q. split; [reflexivity|]. split; unfold Qle; simpl; lia.
  - cbn [le_one] in H. destruct H as [He Hm]. cbn [Float.value].
    destruct (Z.leb_spec 0 e) as [|_]; [lia|].
    eexists; split; [reflexivity|].
    pose proof (pow2_pos (- e) ltac:(lia)) as Hp.
    unfold Qle. cbn [Qnum Qden]. rewrite Z2Pos.id by assumption. lia.
Qed.

Lemma sle_refl (x : spec_float) : sle x x.
Proof. unfold sle, lex_le. lia. Qed.

Lemma sle_trans (x y z : spec_float) : sle x y -> sle y z -> sle x z.
Proof. unfold sle, lex_le. lia. Qed.

Lemma sle_total (x y : spec_float) : sle x y \/ sle y x.
Proof. unfold sle, lex_le. lia. Qed.

Lemma sle_dec (x y : spec_float) : sle x y \/ ~ sle x y.
Proof. unfold sle, lex_le. lia. Qed.

Lemma leb_sle (x y : spec_float) :
  finite_float x -> finite_float y -> (Float.leb x y = true <-> sle x y).
Proof.
  unfold Float.leb, SFleb, sle, lex_le.
  destruct x as [sx|sx| |[|] m1 e1], y as [sy|sy| |[|] m2 e2];
    cbn [finite_float order_key SFcompare fst snd]; try tauto; intros _ _;
    try (split; [intros _; lia|reflexivity]);
    try (split; [discriminate|lia]).
  - destruct (Z.compare_spec e1 e2); try (split; [intros _|reflexivity]; lia).
    + change (Pos.compare_cont Eq m1 m2) with (Pos.compare m1 m2).
      destruct (Pos.compare_spec m1 m2); cbn [CompOpp]; split; try (intros _; lia);
        try reflexivity; try discriminate; lia.
    + split; [discriminate|lia].
  - destruct (Z.compare_spec e1 e2); try (split; [intros _|reflexivity]; lia).
    + change (Pos.compare_cont Eq m1 m2) with (Pos.compare m1 m2).
      destruct (Pos.compare_spec m1 m2); split; try (intros _; lia);
        try reflexivity; try discriminate; lia.
    + split; [discriminate|lia].
Qed.

Lemma ltb_sle (x y : spec_float) :
  finite_float x -> finite_float y -> (Float.ltb x y = true <-> ~ sle y x).
Proof.
  unfold Float.ltb, SFltb, sle, lex_le.
  destruct x as [sx|sx| |[|] m1 e1], y as [sy|sy| |[|] m2 e2];
    cbn [finite_float order_key SFcompare fst snd]; try tauto; intros _ _;
    try (split; [intros _; lia|reflexivity]);
    try (split; [discriminate|lia]).
  - destruct (Z.compare_spec e1 e2); try (split; [intros _|reflexivity]; lia).
    + change (Pos.compare_cont Eq m1 m2) with (Pos.compare m1 m2).
      destruct (Pos.compare_spec m1 m2); cbn [CompOpp]; split; try (intros _; lia);
        try reflexivity; try discriminate; lia.
    + split; [discriminate|lia].
  - destruct (Z.compare_spec e1 e2); try (split; [intros _|reflexivity]; lia).
    + change (Pos.compare_cont Eq m1 m2) with (Pos.compare m1 m2).
      destruct (Pos.compare_spec m1 m2); split; try (intros _; lia);
        try reflexivity; try discriminate; lia.
    + split; [discriminate|lia].
Qed.

End FloatOrder.

(** ** The soundness-error estimator and the maximum kept by [err] *)

Section Estimator.

Lemma range2_In (a b x : Z) : In x (Py.range2 a b) <-> a <= x < b.
Proof.
  rewrite range_up, in_map_iff. split.
  - intros (i & <- & Hi). apply in_seq in Hi. lia.
  - intros Hx. exists (Z.to_nat (x - a)). split; [lia|]. apply in_seq. lia.
Qed.

Lemma range2_empty (a b : Z) : b <= a -> Py.range2 a b = [].
Proof.
  intros H. rewrite range_up. replace (Z.to_nat (b - a)) with 0%nat by lia. reflexivity.
Qed.

Lemma range2_cons (a b : Z) : a < b -> Py.range2 a b = a :: Py.range2 (a + 1) b.
Proof.
  intros H. rewrite !range_up.
  replace (Z.to_nat (b - a)) with (S (Z.to_nat (b - (a + 1)))) by lia.
  cbn [seq map]. f_equal; [lia|].
  rewrite <- seq_shift, map_map. apply map_ext. intros i. lia.
Qed.

Lemma err_loop_max (M tau n : Z) (rhos : list Z) :
  (forall rho, In rho rhos -> exists v, err_sg M tau n rho = Ok v /\ nonneg v) ->
  forall base, nonneg base ->
  exists b, err_loop M tau n rhos base = Ok b /\ nonneg b /\ fle base b /\
    (forall rho, In rho rhos -> exists v, err_sg M tau n rho = Ok v /\ fle v b) /\
    (b = base \/ exists rho, In rho rhos /\ err_sg M tau n rho = Ok b).
Proof.
  induction rhos as [|rho rest IH]; intros Hall base Hbase.
  - exists base. cbn [err_loop]. repeat split; auto using fle_refl.
    intros rho [].
  - destruct (Hall rho (or_introl eq_refl)) as (v & Hv & Hvn).
    cbn [err_loop]. rewrite Hv. cbn [bind].
    set (base' := if Float.ltb base v then v else base).
    assert (Hb' : nonneg base' /\ fle base base' /\ fle v base' /\
                  (base' = base \/ base' = v)).
    { unfold base'. destruct (Float.ltb base v) eqn:Hlt.
      - apply ltb_fle in Hlt; try assumption.
        destruct (fle_total base v Hbase Hvn) as [H|H]; [|contradiction].
        repeat split; auto using fle_refl.
      - assert (Hle : fle v base).
        { destruct (fle_dec v base) as [H|H]; [exact H|exfalso].
          apply (ltb_fle base v Hbase Hvn) in H. congruence. }
        repeat split; auto using fle_refl. }
    destruct Hb' as (Hn' & Hbb' & Hvb' & Hor).
    destruct (IH (fun r Hr => Hall r (or_intror Hr)) base' Hn')
      as (b & Hb & Hbn & Hle & Hrest & Hwit).
    exists b. repeat split; try assumption.
    + eapply fle_trans; eassumption.
    + intros r [<-|Hr].
      * exists v. split; [assumption|]. eapply fle_trans; eassumption.
      * apply Hrest. assumption.
    + destruct Hwit as [->|(r & Hr & Hrb)].
      * destruct Hor as [->| ->]; [now left|right].
        exists rho. split; [now left|assumption].
      * right. exists r. split; [now right|assumption].
Qed.

Lemma err_base_max (M tau n : Z) :
  0 < tau -> 1 <= n ->
  exists base, err_base M tau n = Ok base /\ le_one base /\ is_max_err_sg M tau n base.
Proof.
  intros Ht Hn. unfold err_base.
  assert (Hall : forall rho, In rho (Py.range2 (M - tau + 1) (M + 1)) ->
                 exists v, err_sg M tau n rho = Ok v /\ nonneg v).
  { intros rho Hrho. apply range2_In in Hrho.
    destruct (err_sg_le_one M tau n rho Ht Hn ltac:(lia)) as (v & Hv & Hle).
    exists v. split; [assumption|apply le_one_nonneg; assumption]. }
  destruct (err_loop_max M tau n _ Hall Float.zero I)
    as (b & Hb & Hbn & _ & Hle & Hwit).
  assert (Hex : exists rho, M - tau + 1 <= rho <= M /\ err_sg M tau n rho = Ok b).
  { destruct Hwit as [->|(r & Hr & Hrb)].
    - exists M. split; [lia|].
      destruct (Hle M ltac:(apply range2_In; lia)) as (v & Hv & Hv0).
      destruct (Hall M ltac:(apply range2_In; lia)) as (v' & Hv' & Hvn).
      rewrite Hv in Hv'. injection Hv' as <-.
      rewrite Hv. f_equal. apply fle_zero_inv; assumption.
    - exists r. apply range2_In in Hr. split; [lia|assumption]. }
  exists b. split; [exact Hb|]. split.
  - destruct Hex as (r & Hr & Hrb).
    destruct (err_sg_le_one M tau n r Ht Hn Hr) as (v & Hv & Hlv).
    rewrite Hrb in Hv. injection Hv as <-. exact Hlv.
  - split; [|exact Hex].
    intros rho Hrho.
    destruct (Hle rho ltac:(apply range2_In; lia)) as (v & Hv & Hvb).
    destruct (Hall rho ltac:(apply range2_In; lia)) as (v' & Hv' & Hvn).
    rewrite Hv in Hv'. injection Hv' as <-.
    exists v. split; [assumption|]. apply leb_fle; assumption.
Qed.

(** The same loop over finite floats of either sign, as a negative [n]
    produces them. *)
Lemma err_loop_bound (M tau n : Z) (rhos : list Z) :
  (forall rho, In rho rhos -> exists v, err_sg M tau n rho = Ok v /\ finite_float v) ->
  forall base, finite_float base ->
  exists b, err_loop M tau n rhos base = Ok b /\ finite_float b /\ sle base b /\
    (forall rho, In rho rhos -> exists v, err_sg M tau n rho = Ok v /\ sle v b) /\
    (b = base \/ exists rho, In rho rhos /\ err_sg M tau n rho = Ok b).
Proof.
  induction rhos as [|rho rest IH]; intros Hall base Hbase.
  - exists base. cbn [err_loop]. repeat split; auto using sle_refl.
    intros rho [].
  - destruct (Hall rho (or_introl eq_refl)) as (v & Hv & Hvn).
    cbn [err_loop]. rewrite Hv. cbn [bind].
    set (base' := if Float.ltb base v then v else base).
    assert (Hb' : finite_float base' /\ sle base base' /\ sle v base' /\
                  (base' = base \/ base' = v)).
    { unfold base'. destruct (Float.ltb base v) eqn:Hlt.
      - apply ltb_sle in Hlt; try assumption.
        destruct (sle_total base v) as [H|H]; [|contradiction].
        repeat split; auto using sle_refl.
      - assert (Hle : sle v base).
        { destruct (sle_dec v base) as [H|H]; [exact H|exfalso].
          apply (ltb_sle base v Hbase Hvn) in H. congruence. }
        repeat split; auto using sle_refl. }
    destruct Hb' as (Hn' & Hbb' & Hvb' & Hor).
    destruct (IH (fun r Hr => Hall r (or_intror Hr)) base' Hn')
      as (b & Hb & Hbn & Hle & Hrest & Hwit).
    exists b. repeat split; try assumption.
    + eapply sle_trans; eassumption.
    + intros r [<-|Hr].
      * exists v. split; [assumption|]. eapply sle_trans; eassumption.
      * apply Hrest. assumption.
    + destruct Hwit as [->|(r & Hr & Hrb)].
      * destruct Hor as [->| ->]; [now left|right].
        exists rho. split; [now left|assumption].
      * right. exists r. split; [now right|assumption].
Qed.

(** For tau > 0 and a non-zero [n] the rho range is not empty, every
    value of the estimator on it is finite, and one of them is the
    largest. *)
Lemma err_sg_has_maximum (M tau n : Z) :
  0 < tau -> n <> 0 -> exists w, finite_float w /\ is_max_err_sg M tau n w.
Proof.
  intros Ht Hn.
  assert (Hall : forall rho, In rho (Py.range2 (M - tau + 1) (M + 1)) ->
                 exists v, err_sg M tau n rho = Ok v /\ finite_float v).
  { intros rho Hrho. apply range2_In in Hrho.
    apply err_sg_finite; [assumption|assumption|lia]. }
  assert (Hin : forall rho, M - tau + 1 <= rho <= M <->
                  In rho (Py.range2 (M - tau + 1) (M + 1))).
  { intros rho. rewrite range2_In. lia. }
  rewrite range2_cons in Hall, Hin by lia.
  set (rho0 := M - tau + 1) in *. set (rest := Py.range2 (rho0 + 1) (M + 1)) in *.
  destruct (Hall rho0 (or_introl eq_refl)) as (v0 & Hv0 & Hf0).
  destruct (err_loop_bound M tau n rest (fun r Hr => Hall r (or_intror Hr)) v0 Hf0)
    as (w & _ & Hwf & Hv0w & Hle & Hwit).
  exists w. split; [exact Hwf|]. split.
  - intros rho Hrho. apply Hin in Hrho. destruct Hrho as [<-|Hrho].
    + exists v0. split; [exact Hv0|]. apply leb_sle; assumption.
    + destruct (Hle rho Hrho) as (v & Hv & Hvw).
      destruct (Hall rho (or_intror Hrho)) as (v' & Hv' & Hvf).
      rewrite Hv in Hv'. injection Hv' as <-.
      exists v. split; [exact Hv|]. apply leb_sle; assumption.
  - destruct Hwit as [->|(r & Hr & Hrw)].
    + exists rho0. split; [apply Hin; now left|exact Hv0].
    + exists r. split; [apply Hin; now right|exact Hrw].
Qed.

(** The test of [err] gives the same answer on [base] and on the largest
    value of the estimator: when [base] is still the initial 0.0, none of
    the values is positive, and both are below the target. *)
Lemma err_base_decides_like_maximum (M tau n : Z) (w : Float.float) :
  0 < tau -> n <> 0 -> finite_float w -> is_max_err_sg M tau n w ->
  exists base, err_base M tau n = Ok base /\
               Float.ltb base target = Float.ltb w target.
Proof.
  intros Ht Hn Hwf [Hmax (r0 & Hr0 & Hw0)].
  assert (Hall : forall rho, In rho (Py.range2 (M - tau + 1) (M + 1)) ->
                 exists v, err_sg M tau n rho = Ok v /\ finite_float v).
  { intros rho Hrho. apply range2_In in Hrho.
    apply err_sg_finite; [assumption|assumption|lia]. }
  destruct (err_loop_bound M tau n _ Hall Float.zero I)
    as (b & Hb & Hbf & _ & Hle & Hwit).
  exists b. split; [exact Hb|].
  assert (Hiff : sle target b <-> sle target w).
  { split.
    - intros Htb. destruct Hwit as [->|(r & Hr & Hrb)].
      + exfalso. revert Htb. unfold sle, lex_le, target, Float.zero.
        cbn [order_key fst snd]. lia.
      + apply range2_In in Hr. destruct (Hmax r ltac:(lia)) as (v & Hv & Hvw).
        rewrite Hrb in Hv. injection Hv as <-.
        apply leb_sle in Hvw; try assumption.
        eapply sle_trans; eassumption.
    - intros Htw. destruct (Hle r0 ltac:(apply range2_In; lia)) as (v & Hv & Hvb).
      rewrite Hw0 in Hv. injection Hv as <-.
      eapply sle_trans; eassumption. }
  assert (Htf : finite_float target) by exact I.
  destruct (Float.ltb b target) eqn:E1, (Float.ltb w target) eqn:E2;
    try reflexivity; exfalso.
  - apply ltb_sle in E1; try assumption.
    destruct (sle_dec target w) as [H|H]; [apply E1, Hiff, H|].
    apply (ltb_sle w target Hwf Htf) in H. congruence.
  - apply ltb_sle in E2; try assumption.
    destruct (sle_dec target b) as [H|H]; [apply E2, Hiff, H|].
    apply (ltb_sle b target Hbf Htf) in H. congruence.
Qed.

(** C1 (as amended): for 0 < tau < M and n >= 1, the loop of [err] ends
    normally with [base] holding the maximum of [err_sg] over rho in
    [M-tau+1, M]: it is at least every individual value and equal to one
    of them.  [err] compares this value with the target; it does not
    return it. *)
Theorem err_base_is_maximum (M tau n : Z) :
  0 < tau < M -> 1 <= n ->
  exists base, err_base M tau n = Ok base /\ is_max_err_sg M tau n base.
Proof.
  intros Ht Hn. destruct (err_base_max M tau n (proj1 Ht) Hn) as (b & Hb & _ & Hmax).
  exists b. split; assumption.
Qed.

Lemma err_base_is_maximum_witness :
  exists base, err_base 2 1 16 = Ok base /\ is_max_err_sg 2 1 16 base.
Proof. apply (err_base_is_maximum 2 1 16); lia. Defined.

(** C1 as stated fails for n = -1: with M = 2 and tau = 1 the only rho is
    2, the estimator gives -1.0 there, and [base] stays at its initial
    0.0, which is not a value of the estimator. *)
Lemma err_base_not_maximum_for_negative_n :
  0 < 1 < 2 /\
  err_sg 2 1 (-1) 2 = Ok (S754_finite true 4503599627370496 (-52)) /\
  err_base 2 1 (-1) = Ok Float.zero /\
  ~ is_max_err_sg 2 1 (-1) Float.zero.
Proof.
  split; [lia|]. split; [vm_compute; reflexivity|]. split; [vm_compute; reflexivity|].
  intros [_ (rho & Hr & He)].
  assert (rho = 2) by lia. subst rho. vm_compute in He. discriminate He.
Qed.

(** C6: for 0 < tau < M, n >= 1 and rho in [M-tau+1, M], a <= b and
    c >= 1, and [err_sg] returns a float e with 0.0 <= e <= 1.0, whose
    value as a rational number lies in [0, 1]. *)
Theorem err_sg_in_unit_interval (M tau n rho : Z) :
  0 < tau < M -> 1 <= n -> M - tau + 1 <= rho <= M ->
  ncr rho (M - tau) <= ncr M (M - tau) /\
  1 <= n ^ (rho - M + tau) /\
  exists e q,
    err_sg M tau n rho = Ok e /\
    Float.leb Float.zero e = true /\ Float.leb e Float.one = true /\
    Float.value e = Some q /\ (0 <= q)%Q /\ (q <= 1)%Q.
Proof.
  intros Ht Hn Hrho. split; [apply ncr_mono; lia|]. split.
  - pose proof (Z.pow_pos_nonneg n (rho - M + tau) ltac:(lia) ltac:(lia)). lia.
  - destruct (err_sg_le_one M tau n rho (proj1 Ht) Hn Hrho) as (e & He & Hle).
    destruct (le_one_leb e Hle) as [H0 H1].
    destruct (le_one_value e Hle) as (q & Hq & Hq0 & Hq1).
    exists e, q. repeat split; assumption.
Qed.

Lemma err_sg_in_unit_interval_witness :
  ncr 60 (64 - 8) <= ncr 64 (64 - 8) /\
  1 <= 16 ^ (60 - 64 + 8) /\
  exists e q,
    err_sg 64 8 16 60 = Ok e /\
    Float.leb Float.zero e = true /\ Float.leb e Float.one = true /\
    Float.value e = Some q /\ (0 <= q)%Q /\ (q <= 1)%Q.
Proof. apply (err_sg_in_unit_interval 64 8 16 60); lia. Defined.




(** The calls made by [err] stay inside the modelled fragment: the
    exponent [rho - M + tau] is at least one on the whole rho range. *)
Lemma ratio_modelled (a b : Z) (c : num) : ratio a b c <> OutOfModel.
Proof.
  assert (Hd : forall d, truediv_num d c <> OutOfModel).
  { intros d. destruct c as [z|f]; cbn [truediv_num].
    - unfold Float.truediv_int, Float.of_int.
      destruct (binary_normalize Float.prec Float.emax z 0 false)
        as [s'|s'| |s' m' e']; cbn [bind]; discriminate.
    - unfold Float.truediv. destruct f; discriminate. }
  unfold ratio, Float.int_truediv.
  destruct (b =? 0); cbn [bind]; [discriminate|].
  destruct (SFdiv Float.prec Float.emax (Float.exact a) (Float.exact b))
    as [s|s| |s m e]; cbn [bind]; try discriminate; apply Hd.
Qed.

Lemma err_sg_modelled (M tau n rho : Z) :
  M - tau + 1 <= rho -> err_sg M tau n rho <> OutOfModel.
Proof.
  intros Hrho. unfold err_sg, int_pow. cbv zeta.
  destruct (Z.ltb_spec (rho - M + tau) 0) as [|_]; [lia|]. cbn [bind].
  pose proof (ratio_modelled (ncr rho (M - tau)) (ncr M (M - tau))
                (Int (n ^ (rho - M + tau)))) as Hr.
  destruct (ratio _ _ _) as [v|[]|]; try discriminate. contradiction.
Qed.

Lemma err_modelled (M tau n : Z) (lst : list (Z * Z)) :
  err M tau n lst <> OutOfModel.
Proof.
  unfold err, err_base.
  assert (H : forall rhos base,
             (forall rho, In rho rhos -> M - tau + 1 <= rho) ->
             err_loop M tau n rhos base <> OutOfModel).
  { induction rhos as [|rho rhos IH]; intros base Hr; cbn [err_loop]; [discriminate|].
    pose proof (err_sg_modelled M tau n rho (Hr rho (or_introl eq_refl))) as Hm.
    destruct (err_sg M tau n rho) as [v|e|]; cbn [bind];
      [|discriminate|contradiction].
    apply IH. intros r Hin. apply Hr. now right. }
  specialize (H (Py.range2 (M - tau + 1) (M + 1)) Float.zero
                (fun rho Hin => proj1 (proj1 (range2_In _ _ _) Hin))).
  destruct (err_loop M tau n _ Float.zero) as [v|e|]; cbn [bind];
    [discriminate|discriminate|contradiction].
Qed.

(** The rounding of the model on known values: [float(10**23)] and
    [10**30 / 10**7] are 5960464477539062 * 2^24, ties go to the even
    mantissa, and [1 / 3] is 6004799503160661 * 2^-54. *)
Example float_conformance :
  Float.of_int (10 ^ 23) = Ok (S754_finite false 5960464477539062 24) /\
  Float.int_truediv (10 ^ 30) (10 ^ 7) = Ok (S754_finite false 5960464477539062 24) /\
  Float.of_int (2 ^ 53 + 1) = Ok (S754_finite false 4503599627370496 1) /\
  Float.of_int (2 ^ 53 + 3) = Ok (S754_finite false 4503599627370498 1) /\
  Float.int_truediv 1 3 = Ok (S754_finite false 6004799503160661 (-54)) /\
  Float.int_truediv 0 (-5) = Ok (S754_zero true) /\
  Float.int_truediv 1 (2 ^ 1075) = Ok Float.zero /\
  Float.int_truediv (2 ^ 1100) 3 = Raise OverflowError /\
  Float.int_truediv 1 0 = Raise ZeroDivisionError.
Proof. repeat split; vm_compute; reflexivity. Qed.

(** Where the model leaves the range of floats: the largest integer that
    converts is 2^1024 - 2^970 - 1, a float divided by a float overflows
    to [inf] silently, and a negative power is given when it is exact. *)
Example overflow_conformance :
  Float.of_int (2 ^ 1024 - 2 ^ 970 - 1) = Ok (S754_finite false 9007199254740991 971) /\
  Float.of_int (2 ^ 1024 - 2 ^ 970) = Raise OverflowError /\
  Float.of_int (- (2 ^ 1024)) = Raise OverflowError /\
  Float.int_truediv (2 ^ 1024 - 2 ^ 970) 1 = Raise OverflowError /\
  Float.truediv Float.one (S754_finite false 17179869184 (-1074))
    = Ok (S754_infinity false) /\
  Float.truediv Float.one Float.zero = Raise ZeroDivisionError /\
  Float.pow_neg 2 (-3) = Ok (S754_finite false 4503599627370496 (-55)) /\
  Float.pow_neg (-2) (-3) = Ok (S754_finite true 4503599627370496 (-55)) /\
  Float.pow_neg 1 (-7) = Ok Float.one /\
  Float.pow_neg 16 (-260) = Ok (S754_finite false 17179869184 (-1074)) /\
  Float.pow_neg 3 (-1) = OutOfModel /\
  Float.pow_neg 16 (-300) = OutOfModel /\
  Float.pow_neg 0 (-1) = Raise ZeroDivisionError /\
  Float.pow_neg (2 ^ 1024) (-1) = Raise OverflowError.
Proof. repeat split; vm_compute; reflexivity. Qed.

(** [0.5**60]: sixty halvings of [1.0], each exact. *)
Example target_is_half_to_the_60 :
  Nat.iter 60 (fun x => SFmul Float.prec Float.emax x
                          (S754_finite false 4503599627370496 (-53))) Float.one
  = target.
Proof. vm_compute. reflexivity. Qed.

(** The exception that is not handled: a zero [n] makes [c] zero and the
    division raises ZeroDivisionError. *)
Example err_sg_zero_division : err_sg 2 1 0 2 = Raise ZeroDivisionError.
Proof. vm_compute. reflexivity. Qed.

End Estimator.

(** ** The candidate list *)

Section Candidates.

Lemma for_each_invariant {S A : Type} (P : S -> Prop) (body : A -> S -> outcome S) :
  (forall x s s', P s -> body x s = Ok s' -> P s') ->
  forall xs s s', P s -> for_each xs body s = Ok s' -> P s'.
Proof.
  intros Hbody xs. induction xs as [|x xs IH]; intros s s' Hs Hrun.
  - cbn [for_each] in Hrun. injection Hrun as <-. exact Hs.
  - cbn [for_each] in Hrun. destruct (body x s) as [s1| |] eqn:Hx; try discriminate.
    cbn [bind] in Hrun. eapply IH; [|exact Hrun]. eapply Hbody; eassumption.
Qed.

Lemma err_step (M tau n : Z) (lst lst' : list (Z * Z)) :
  err M tau n lst = Ok lst' ->
  (lst' = lst ++ [(M, tau)] /\ below_target n (M, tau)) \/
  (lst' = lst /\ exists w, err_base M tau n = Ok w /\ Float.ltb w target = false).
Proof.
  unfold err. destruct (err_base M tau n) as [w| |] eqn:Hw; try discriminate.
  cbn [bind]. destruct (Float.ltb w target) eqn:Hlt; intros [= <-].
  - left. split; [reflexivity|]. exists w. split; assumption.
  - right. split; [reflexivity|]. exists w. split; [reflexivity|assumption].
Qed.

Lemma err_keeps_below_target (M tau n : Z) (lst lst' : list (Z * Z)) :
  Forall (below_target n) lst -> err M tau n lst = Ok lst' ->
  Forall (below_target n) lst'.
Proof.
  intros Hall Herr. destruct (err_step M tau n lst lst' Herr) as [[-> Hb]|[-> _]].
  - apply Forall_app. split; [assumption|]. constructor; [assumption|constructor].
  - assumption.
Qed.

Lemma search_keeps_below_target (Ms taus : list Z) (n : Z) (lst lst' : list (Z * Z)) :
  Forall (below_target n) lst -> search Ms taus n lst = Ok lst' ->
  Forall (below_target n) lst'.
Proof.
  unfold search. apply for_each_invariant. intros M.
  apply for_each_invariant. intros tau s s'. apply err_keeps_below_target.
Qed.

Lemma appended_iff (b : bool) (lst : list (Z * Z)) (p : Z * Z) :
  Ok (if b then lst ++ [p] else lst) = Ok (lst ++ [p]) <-> b = true.
Proof.
  destruct b; split; intros H; try reflexivity; try discriminate H.
  injection H as H. apply (f_equal (@List.length _)) in H.
  rewrite length_app in H. cbn [List.length] in H. lia.
Qed.

(** C3 (as amended): for tau > 0 and n <> 0, the values of [err_sg] over
    rho in [M-tau+1, M] have a maximum w, and the call [err(M, tau, n)]
    appends (M, tau) to the candidate list exactly when w is strictly
    below the target, leaving the list as it is otherwise; for n >= 1, w
    is the value of [base].  Every call of [err], whatever its arguments,
    and so the search from the empty list, keeps the invariant that each
    recorded pair has the [base] that [err] computes for it, its
    worst-case error, below the target. *)
Theorem err_records_iff_below_target (M tau n : Z) (lst : list (Z * Z)) :
  0 < tau -> n <> 0 ->
  (exists w, is_max_err_sg M tau n w /\
     (err M tau n lst = Ok (lst ++ [(M, tau)]) <-> Float.ltb w target = true) /\
     (Float.ltb w target = true -> err M tau n lst = Ok (lst ++ [(M, tau)])) /\
     (Float.ltb w target = false -> err M tau n lst = Ok lst) /\
     (1 <= n -> err_base M tau n = Ok w)) /\
  (forall M' tau' lst0 lst1,
     Forall (below_target n) lst0 -> err M' tau' n lst0 = Ok lst1 ->
     Forall (below_target n) lst1) /\
  (forall Ms taus lst1,
     search Ms taus n [] = Ok lst1 -> Forall (below_target n) lst1).
Proof.
  intros Ht Hn. split; [|split].
  - destruct (Z.le_gt_cases 1 n) as [Hpos|Hneg].
    + destruct (err_base_max M tau n Ht Hpos) as (w & Hw & _ & Hmax).
      exists w. unfold err. rewrite Hw. cbn [bind].
      split; [exact Hmax|]. split; [apply appended_iff|].
      split; [|split]; [intros ->; reflexivity..|].
      intros _. reflexivity.
    + destruct (err_sg_has_maximum M tau n Ht Hn) as (w & Hwf & Hmax).
      destruct (err_base_decides_like_maximum M tau n w Ht Hn Hwf Hmax)
        as (b & Hb & Heq).
      exists w. unfold err. rewrite Hb. cbn [bind]. rewrite Heq.
      split; [exact Hmax|]. split; [apply appended_iff|].
      split; [|split]; [intros ->; reflexivity..|].
      intros H1. lia.
  - intros M' tau' lst0 lst1. apply err_keeps_below_target.
  - intros Ms taus lst1. apply search_keeps_below_target. constructor.
Qed.

Lemma err_records_iff_below_target_witness :
  err 72 24 16 [] = Ok [(72, 24)] /\ err 64 8 16 [] = Ok [] /\
  (exists w, is_max_err_sg 72 24 16 w /\
     (err 72 24 16 [] = Ok ([] ++ [(72, 24)]) <-> Float.ltb w target = true) /\
     (Float.ltb w target = true -> err 72 24 16 [] = Ok ([] ++ [(72, 24)])) /\
     (Float.ltb w target = false -> err 72 24 16 [] = Ok []) /\
     (1 <= 16 -> err_base 72 24 16 = Ok w)) /\
  (exists w, is_max_err_sg 2 1 (-1) w /\
     (err 2 1 (-1) [] = Ok ([] ++ [(2, 1)]) <-> Float.ltb w target = true) /\
     (Float.ltb w target = true -> err 2 1 (-1) [] = Ok ([] ++ [(2, 1)])) /\
     (Float.ltb w target = false -> err 2 1 (-1) [] = Ok []) /\
     (1 <= -1 -> err_base 2 1 (-1) = Ok w)).
Proof.
  split; [vm_compute; reflexivity|]. split; [vm_compute; reflexivity|]. split.
  - apply (err_records_iff_below_target 72 24 16 []); lia.
  - apply (err_records_iff_below_target 2 1 (-1) []); lia.
Defined.

(** C3 as stated fails outside tau > 0 and n <> 0.  For tau = 0 the rho
    range is empty: no value of [err_sg] exists, let alone a maximum, and
    [err] still appends the pair.  For n = 0 the first value already
    raises ZeroDivisionError: there is no maximum either, and [err] ends
    with the exception. *)
Lemma err_appends_without_maximum :
  Py.range2 (64 - 0 + 1) (64 + 1) = [] /\
  err 64 0 16 [] = Ok [(64, 0)] /\
  ~ (exists w, is_max_err_sg 64 0 16 w) /\
  err 64 8 0 [] = Raise ZeroDivisionError /\
  ~ (exists w, is_max_err_sg 64 8 0 w).
Proof.
  split; [vm_compute; reflexivity|]. split; [vm_compute; reflexivity|]. split; [|split].
  - intros (w & _ & rho & Hrho & _). lia.
  - vm_compute. reflexivity.
  - intros (w & Hall & _). destruct (Hall 57 ltac:(lia)) as (v & Hv & _).
    vm_compute in Hv. discriminate Hv.
Qed.

(** C8: when the search ends with an empty candidate list, the scan
    leaves [min_tuples] at the sentinel and the script prints
    (10000, 10000) after its progress line. *)
Theorem empty_candidates_print_sentinel (Ms taus : list Z) (n : Z) :
  search Ms taus n [] = Ok [] ->
  select [] = sentinel /\
  run Ms taus n = Ok [PrintStr "finish computing"; PrintTuple (10000, 10000)].
Proof.
  intros Hs. split; [reflexivity|]. unfold run. rewrite Hs. reflexivity.
Qed.

Lemma empty_candidates_print_sentinel_witness :
  search (Py.range3 64 72 8) (Py.range3 8 16 8) 16 [] = Ok [] /\
  run (Py.range3 64 72 8) (Py.range3 8 16 8) 16 =
    Ok [PrintStr "finish computing"; PrintTuple (10000, 10000)].
Proof.
  assert (Hs : search (Py.range3 64 72 8) (Py.range3 8 16 8) 16 [] = Ok [])
    by (vm_compute; reflexivity).
  split; [exact Hs|].
  exact (proj2 (empty_candidates_print_sentinel _ _ _ Hs)).
Defined.

End Candidates.

(** ** The search as a filter, and the output of the script *)

Section Search.

Lemma passes_below_target (n : Z) (p : Z * Z) :
  passes n p = true <-> below_target n p.
Proof.
  unfold passes, below_target. split.
  - destruct (err_base (fst p) (snd p) n) as [w| |]; try discriminate.
    intros H. exists w. split; [reflexivity|exact H].
  - intros (w & -> & H). exact H.
Qed.

Lemma inner_loop_filter (M n : Z) (taus : list Z) : forall lst,
  (forall tau, In tau taus -> exists w, err_base M tau n = Ok w) ->
  for_each taus (fun tau => err M tau n) lst =
  Ok (lst ++ filter (passes n) (map (pair M) taus)).
Proof.
  induction taus as [|tau taus IH]; intros lst Hall.
  - cbn. rewrite app_nil_r. reflexivity.
  - destruct (Hall tau (or_introl eq_refl)) as (w & Hw).
    cbn [for_each map filter]. unfold err at 1, passes at 1. cbn [fst snd].
    rewrite Hw. cbn [bind].
    rewrite IH by (intros t Ht; apply Hall; now right).
    destruct (Float.ltb w target); [rewrite <- app_assoc|]; reflexivity.
Qed.

Lemma search_filter (n : Z) (Ms taus : list Z) : forall lst,
  (forall M tau, In M Ms -> In tau taus -> exists w, err_base M tau n = Ok w) ->
  search Ms taus n lst = Ok (lst ++ filter (passes n) (list_prod Ms taus)).
Proof.
  unfold search. induction Ms as [|M Ms IH]; intros lst Hall.
  - cbn. rewrite app_nil_r. reflexivity.
  - cbn [for_each list_prod].
    rewrite inner_loop_filter by (intros t Ht; apply Hall; [now left|assumption]).
    cbn [bind]. rewrite IH by (intros M' t HM Ht; apply Hall; [now right|assumption]).
    rewrite filter_app, app_assoc. reflexivity.
Qed.

Lemma production_ranges (M tau : Z) :
  In M (Py.range3 64 512 8) -> In tau (Py.range3 8 50 8) ->
  64 <= M <= 504 /\ 8 <= tau <= 48.
Proof.
  intros HM Ht.
  assert (H1 : forallb (fun M => (64 <=? M) && (M <=? 504)) (Py.range3 64 512 8) = true)
    by (vm_compute; reflexivity).
  assert (H2 : forallb (fun t => (8 <=? t) && (t <=? 48)) (Py.range3 8 50 8) = true)
    by (vm_compute; reflexivity).
  rewrite forallb_forall in H1, H2.
  specialize (H1 M HM). specialize (H2 tau Ht). lia.
Qed.

Lemma run_prints_best (Ms taus : list Z) (n : Z) (p0 : Z * Z) :
  (forall M tau, In M Ms -> In tau taus -> 0 < tau < M /\ M <= 504 /\ tau <= 48) ->
  1 <= n ->
  In (fst p0) Ms -> In (snd p0) taus -> passes n p0 = true ->
  forallb (fun p => negb (passes n p))
          (filter (strictly_better p0) (list_prod Ms taus)) = true ->
  run Ms taus n = Ok [PrintStr "finish computing"; PrintTuple p0].
Proof.
  intros Hdom Hn HM0 Ht0 Hp0 Hworse.
  assert (Hok : forall M tau, In M Ms -> In tau taus ->
                exists w, err_base M tau n = Ok w).
  { intros M tau HM Ht. destruct (Hdom M tau HM Ht) as (H1 & _).
    destruct (err_base_max M tau n (proj1 H1) Hn) as (w & Hw & _). exists w. exact Hw. }
  pose proof (search_filter n Ms taus [] Hok) as Hs. cbn [app] in Hs.
  remember (filter (passes n) (list_prod Ms taus)) as lst eqn:Hlst.
  assert (Hmemb : forall p, In p lst <->
            In p (list_prod Ms taus) /\ passes n p = true).
  { intros p. rewrite Hlst. apply filter_In. }
  assert (Hin : In p0 lst).
  { apply Hmemb. split; [|exact Hp0]. destruct p0 as [M0 t0].
    apply in_prod; assumption. }
  destruct (select_from_spec lst sentinel) as (Hsel & _ & Hall).
  fold (select lst) in Hsel, Hall.
  pose proof (Hall _ Hin) as Hbest.
  assert (Hmem : In (select lst) lst).
  { destruct Hsel as [Hsen|H]; [|exact H].
    rewrite <- Hsen in Hbest.
    destruct p0 as [M0 t0]. cbn [fst snd] in HM0, Ht0.
    destruct (Hdom M0 t0 HM0 Ht0) as (_ & _ & H48).
    unfold better_eq, sentinel in Hbest. cbn [fst snd] in Hbest. lia. }
  assert (Heq : select lst = p0).
  { apply Hmemb in Hmem. destruct Hmem as [Hp Hpass].
    destruct (strictly_better p0 (select lst)) eqn:Hsb.
    - rewrite forallb_forall in Hworse.
      specialize (Hworse (select lst) ltac:(apply filter_In; split; assumption)).
      rewrite Hpass in Hworse. discriminate Hworse.
    - unfold strictly_better in Hsb. unfold better_eq in Hbest.
      destruct (select lst) as [M t], p0 as [M0 t0]. cbn [fst snd] in *.
      f_equal; lia. }
  unfold run. rewrite Hs. cbn [bind]. rewrite Heq. reflexivity.
Qed.

(** C7: with n = 16, the target 0.5^60 and the ranges range(64, 512, 8)
    and range(8, 50, 8), the script runs to its end and prints, after the
    progress line, the pair (144, 16): a pair of the searched ranges that
    is not the sentinel, with tau < 10000 and a worst-case error below the
    target. *)
Theorem main_prints_candidate :
  main = Ok [PrintStr "finish computing"; PrintTuple (144, 16)] /\
  (144, 16) <> sentinel /\ 16 < 10000 /\
  In 144 (Py.range3 64 512 8) /\ In 16 (Py.range3 8 50 8) /\
  below_target n (144, 16).
Proof.
  assert (Hp : passes n (144, 16) = true) by (vm_compute; reflexivity).
  assert (HM : In 144 (Py.range3 64 512 8)) by (vm_compute; tauto).
  assert (Ht : In 16 (Py.range3 8 50 8)) by (vm_compute; tauto).
  split; [|repeat split; try assumption].
  - unfold main.
    apply (run_prints_best (Py.range3 64 512 8) (Py.range3 8 50 8) n (144, 16)).
    + intros M tau HM' Ht'. pose proof (production_ranges M tau HM' Ht'). lia.
    + unfold n. lia.
    + exact HM.
    + exact Ht.
    + exact Hp.
    + vm_compute. reflexivity.
  - unfold sentinel. intros H. discriminate H.
  - apply passes_below_target. exact Hp.
Qed.

End Search.

(** ** The log parser: when it fails and when it does not *)

Module ParserFacts.

Import LogParser.

Lemma distinctb_NoDup (l : list string) : distinctb l = true -> NoDup l.
Proof.
  induction l as [|x l IH]; intros H; constructor.
  - cbn [distinctb] in H. apply andb_prop in H. destruct H as [H _].
    intros Hin. apply negb_true_iff in H.
    assert (He : existsb (String.eqb x) l = true).
    { apply existsb_exists. exists x. split; [assumption|apply String.eqb_refl]. }
    congruence.
  - apply IH. cbn [distinctb] in H. apply andb_prop in H. tauto.
Qed.

Lemma circuit_names_NoDup : NoDup circuit_names.
Proof. apply distinctb_NoDup. vm_compute. reflexivity. Qed.

Lemma circuit_names_inj (i j : nat) (a : string) :
  nth_error circuit_names i = Some a -> nth_error circuit_names j = Some a -> i = j.
Proof.
  intros Hi Hj. apply (proj1 (NoDup_nth_error circuit_names) circuit_names_NoDup).
  - apply nth_error_Some. congruence.
  - congruence.
Qed.

Lemma dict_get_set_same (d : dict) (k : string) (v : entry) :
  dict_get (dict_set d k v) k = Some v.
Proof.
  induction d as [|[k' v'] d IH]; cbn [dict_set dict_get].
  - rewrite String.eqb_refl. reflexivity.
  - destruct (String.eqb k' k) eqn:E; cbn [dict_get]; rewrite E; [reflexivity|exact IH].
Qed.

Lemma dict_get_set_other (d : dict) (k k' : string) (v : entry) :
  k <> k' -> dict_get (dict_set d k v) k' = dict_get d k'.
Proof.
  intros Hne. induction d as [|[k0 v0] d IH]; cbn [dict_set dict_get].
  - destruct (String.eqb_spec k k'); [contradiction|reflexivity].
  - destruct (String.eqb_spec k0 k) as [->|Hk]; cbn [dict_get].
    + destruct (String.eqb_spec k k'); [contradiction|reflexivity].
    + destruct (String.eqb_spec k0 k'); [reflexivity|exact IH].
Qed.

Lemma write_rows_ok_time (d : dict) (rows : list (string * Z * Float.float)) :
  write_rows d = Ok rows ->
  forall k e, dict_get d k = Some e -> time_ms e <> None.
Proof.
  revert rows. induction d as [|[k0 e0] d IH]; intros rows Hw k e Hg.
  - discriminate Hg.
  - cbn [write_rows] in Hw. destruct (time_ms e0) as [t|] eqn:Ht; [|discriminate Hw].
    destruct (write_rows d) as [rows'| |] eqn:Hd; try discriminate Hw.
    cbn [dict_get] in Hg. destruct (String.eqb k0 k).
    + injection Hg as <-. congruence.
    + eapply IH; [reflexivity|exact Hg].
Qed.

Lemma py_float_cases (tok : string) :
  (exists t, py_float tok = Ok t) \/ py_float tok = Raise ValueError.
Proof.
  unfold py_float. destruct (split_dot tok) as [ip fo].
  destruct (_ || _); [now right|left; eexists; reflexivity].
Qed.

Lemma step_cases (i : nat) (line : string) (st : state) :
  (exists st', step i line st = Ok st') \/ (exists e, step i line st = Raise e).
Proof.
  unfold step. destruct (kind_of line).
  - destruct (re_search is_digit line); [|right; eexists; reflexivity].
    destruct (nth_error circuit_names i); [left|right]; eexists; reflexivity.
  - destruct (re_search is_digit_or_dot line) as [tok|]; [|right; eexists; reflexivity].
    destruct (py_float_cases tok) as [(t & ->)| ->]; cbn [bind];
      [|right; eexists; reflexivity].
    destruct (circuit_name st) as [nm|]; [|right; eexists; reflexivity].
    destruct (dict_get (parsed_data st) nm); [left|right]; eexists; reflexivity.
  - left. eexists; reflexivity.
Qed.

Lemma parse_lines_cases (lines : list string) : forall i st,
  (exists st', parse_lines i lines st = Ok st') \/
  (exists e, parse_lines i lines st = Raise e).
Proof.
  induction lines as [|l lines IH]; intros i st; cbn [parse_lines].
  - left. eexists; reflexivity.
  - destruct (step_cases i l st) as [(st' & ->)|(e & ->)]; cbn [bind].
    + apply IH.
    + right. eexists; reflexivity.
Qed.

Lemma write_rows_cases (d : dict) :
  (exists rows, write_rows d = Ok rows) \/ write_rows d = Raise KeyError.
Proof.
  induction d as [|[k e] d IH]; cbn [write_rows].
  - left. eexists; reflexivity.
  - destruct (time_ms e); [|now right].
    destruct IH as [(rows & ->)| ->]; cbn [bind]; [left; eexists; reflexivity|now right].
Qed.

(** The script either writes its rows or raises: it fails as soon as it
    cannot end normally. *)
Lemma not_ok_fails (lines : list string) :
  (forall st rows, parse_lines 0 lines initial = Ok st ->
                   write_rows (parsed_data st) = Ok rows -> False) ->
  fails lines.
Proof.
  intros H. unfold fails, parse.
  destruct (parse_lines_cases lines 0 initial) as [(st & Hst)|(e & ->)];
    [|exists e; reflexivity].
  rewrite Hst. cbn [bind].
  destruct (write_rows_cases (parsed_data st)) as [(rows & Hr)| ->];
    [|exists KeyError; reflexivity].
  exfalso. eapply H; eassumption.
Qed.

Lemma parse_lines_app (l1 l2 : list string) : forall i st,
  parse_lines i (l1 ++ l2) st =
  (st' <- parse_lines i l1 st ;; parse_lines (i + List.length l1) l2 st').
Proof.
  induction l1 as [|l l1 IH]; intros i st; cbn [app parse_lines List.length].
  - cbn [bind]. rewrite Nat.add_0_r. reflexivity.
  - destruct (step i l st) as [st'| |]; cbn [bind]; try reflexivity.
    rewrite IH. replace (S i + List.length l1)%nat with (i + S (List.length l1))%nat by lia.
    reflexivity.
Qed.

Lemma parse_lines_others (pre : list string) : forall i st,
  Forall is_other pre -> parse_lines i pre st = Ok st.
Proof.
  induction pre as [|l pre IH]; intros i st Hall; cbn [parse_lines]; [reflexivity|].
  inversion Hall as [|? ? Hl Hpre]; subst.
  unfold step. unfold is_other in Hl. rewrite Hl. cbn [bind]. apply IH. assumption.
Qed.

Lemma step_size_ok (i : nat) (line : string) (st st' : state) :
  kind_of line = KSize -> step i line st = Ok st' ->
  exists name sz,
    nth_error circuit_names i = Some name /\
    st' = {| parsed_data :=
               dict_set (parsed_data st) name {| size := sz; time_ms := None |};
             circuit_name := Some name |}.
Proof.
  intros Hk. unfold step. rewrite Hk.
  destruct (re_search is_digit line) as [tok|]; [|discriminate].
  destruct (nth_error circuit_names i) as [name|]; [|discriminate].
  intros [= <-]. exists name, (int_of_digits tok 0). split; reflexivity.
Qed.

Lemma step_elapsed_ok (i : nat) (line : string) (st st' : state) :
  kind_of line = KElapsed -> step i line st = Ok st' ->
  exists name e t,
    circuit_name st = Some name /\
    st' = {| parsed_data :=
               dict_set (parsed_data st) name {| size := size e; time_ms := Some t |};
             circuit_name := Some name |}.
Proof.
  intros Hk. unfold step. rewrite Hk.
  destruct (re_search is_digit_or_dot line) as [tok|]; [|discriminate].
  destruct (py_float tok) as [t| |]; cbn [bind]; try discriminate.
  destruct (circuit_name st) as [name|]; [|discriminate].
  destruct (dict_get (parsed_data st) name) as [e|]; [|discriminate].
  intros [= <-]. exists name, e, t. split; reflexivity.
Qed.

(** More size lines than names: some size line has no name left. *)
Lemma parse_lines_ok_count (lines : list string) : forall i st st',
  parse_lines i lines st = Ok st' ->
  filter is_size_line lines = [] \/
  (i + List.length (filter is_size_line lines) <= List.length circuit_names)%nat.
Proof.
  induction lines as [|l lines IH]; intros i st st' Hok; [now left|].
  cbn [parse_lines] in Hok.
  destruct (step i l st) as [s1| |] eqn:Hstep; try discriminate Hok.
  cbn [bind] in Hok. specialize (IH (S i) s1 st' Hok).
  cbn [filter]. destruct (is_size_line l) eqn:Hsz.
  - right. assert (Hk : kind_of l = KSize).
    { unfold is_size_line in Hsz. destruct (kind_of l); [reflexivity|discriminate..]. }
    destruct (step_size_ok i l st s1 Hk Hstep) as (name & sz & Hn & _).
    assert (i < List.length circuit_names)%nat by (apply nth_error_Some; congruence).
    destruct IH as [->|IH]; cbn [List.length]; lia.
  - destruct IH as [IH|IH]; [now left|right; lia].
Qed.

(** An Elapsed line while [circuit_name] is unbound. *)
Lemma step_elapsed_unbound (i : nat) (line : string) (st : state) :
  kind_of line = KElapsed -> circuit_name st = None ->
  exists e, step i line st = Raise e.
Proof.
  intros Hk Hc. unfold step. rewrite Hk.
  destruct (re_search is_digit_or_dot line) as [tok|]; [|eexists; reflexivity].
  destruct (py_float_cases tok) as [(t & ->)| ->]; cbn [bind]; [|eexists; reflexivity].
  rewrite Hc. eexists; reflexivity.
Qed.

Lemma step_keeps_time_missing (i k : nat) (name line : string) (st st' : state) :
  nth_error circuit_names i = Some name -> k <> i ->
  time_missing name st -> step k line st = Ok st' -> time_missing name st'.
Proof.
  intros Hi Hk ((e & He & Het) & (nm & Hnm & Hne)) Hstep.
  destruct (kind_of line) eqn:Hkind.
  - destruct (step_size_ok k line st st' Hkind Hstep) as (name' & sz & Hn' & ->).
    assert (Hd : name' <> name).
    { intros ->. apply Hk. eapply circuit_names_inj; eassumption. }
    split; cbn [parsed_data circuit_name].
    + exists e. rewrite dict_get_set_other by assumption. split; assumption.
    + exists name'. split; [reflexivity|assumption].
  - destruct (step_elapsed_ok k line st st' Hkind Hstep) as (name' & e' & t & Hc & ->).
    rewrite Hnm in Hc. injection Hc as <-.
    split; cbn [parsed_data circuit_name].
    + exists e. rewrite dict_get_set_other by assumption. split; assumption.
    + exists nm. split; [reflexivity|assumption].
  - unfold step in Hstep. rewrite Hkind in Hstep. injection Hstep as <-.
    split; [exists e|exists nm]; split; assumption.
Qed.

Lemma parse_lines_keeps_time_missing (i : nat) (name : string) (lines : list string) :
  nth_error circuit_names i = Some name ->
  forall k st st', (i < k)%nat ->
  time_missing name st -> parse_lines k lines st = Ok st' -> time_missing name st'.
Proof.
  intros Hi. induction lines as [|l lines IH]; intros k st st' Hk Hm Hok.
  - cbn [parse_lines] in Hok. injection Hok as <-. exact Hm.
  - cbn [parse_lines] in Hok.
    destruct (step k l st) as [s1| |] eqn:Hstep; try discriminate Hok.
    cbn [bind] in Hok. apply (IH (S k) s1 st'); [lia| |exact Hok].
    eapply step_keeps_time_missing; [exact Hi| |exact Hm|exact Hstep]. lia.
Qed.

(** A size line followed, among the matching lines, by another size line
    or by nothing. *)
Lemma size_without_elapsed_fails (pre mid rest : list string) (l1 : string) :
  kind_of l1 = KSize -> Forall is_other mid ->
  (rest = [] \/ exists l2 rest', rest = l2 :: rest' /\ kind_of l2 = KSize) ->
  fails (pre ++ l1 :: mid ++ rest).
Proof.
  intros Hk1 Hmid Hrest. apply not_ok_fails. intros stf rows Hloop Hw.
  rewrite parse_lines_app in Hloop.
  destruct (parse_lines 0 pre initial) as [s0| |]; try discriminate Hloop.
  cbn [bind parse_lines] in Hloop. cbn [Nat.add] in Hloop.
  set (i := List.length pre) in *.
  destruct (step i l1 s0) as [s1| |] eqn:Hs1; try discriminate Hloop.
  cbn [bind] in Hloop.
  destruct (step_size_ok i l1 s0 s1 Hk1 Hs1) as (name & sz & Hname & Hs1').
  rewrite parse_lines_app, (parse_lines_others mid) in Hloop by assumption.
  cbn [bind] in Hloop.
  assert (Hget : exists e, dict_get (parsed_data s1) name = Some e /\ time_ms e = None).
  { rewrite Hs1'. cbn [parsed_data]. rewrite dict_get_set_same.
    eexists; split; reflexivity. }
  assert (Hfin : exists e, dict_get (parsed_data stf) name = Some e /\ time_ms e = None).
  { destruct Hrest as [->|(l2 & rest' & -> & Hk2)].
    - cbn [parse_lines] in Hloop. injection Hloop as <-. exact Hget.
    - cbn [parse_lines] in Hloop.
      set (j := (S i + List.length mid)%nat) in *.
      destruct (step j l2 s1) as [s2| |] eqn:Hs2; try discriminate Hloop.
      cbn [bind] in Hloop.
      destruct (step_size_ok j l2 s1 s2 Hk2 Hs2) as (name2 & sz2 & Hname2 & Hs2').
      assert (Hd : name2 <> name).
      { intros ->. assert (j = i) by (eapply circuit_names_inj; eassumption).
        unfold j in *. lia. }
      assert (Hm : time_missing name s2).
      { destruct Hget as (e & He & Het). rewrite Hs2'.
        split; cbn [parsed_data circuit_name].
        - exists e. rewrite dict_get_set_other by assumption. split; assumption.
        - exists name2. split; [reflexivity|assumption]. }
      apply (parse_lines_keeps_time_missing i name rest' Hname (S j) s2 stf
               ltac:(unfold j; lia) Hm Hloop). }
  destruct Hfin as (e & He & Het).
  exact (write_rows_ok_time _ _ Hw name e He Het).
Qed.

(** C9 (as amended): the parser fails when the log has more size lines
    than the hardcoded list has names, when the first matching line is an
    Elapsed line, and when a size line is followed, among the matching
    lines, by another size line or by the end of the log. *)
Theorem parser_failure_conditions :
  (forall lines,
     (List.length circuit_names < List.length (filter is_size_line lines))%nat ->
     fails lines) /\
  (forall pre line rest,
     Forall is_other pre -> kind_of line = KElapsed ->
     fails (pre ++ line :: rest)) /\
  (forall pre l1 mid rest,
     kind_of l1 = KSize -> Forall is_other mid ->
     (rest = [] \/ exists l2 rest', rest = l2 :: rest' /\ kind_of l2 = KSize) ->
     fails (pre ++ l1 :: mid ++ rest)).
Proof.
  split; [|split].
  - intros lines Hmany. apply not_ok_fails. intros st rows Hloop _.
    destruct (parse_lines_ok_count lines 0 initial st Hloop) as [Hnil|Hle].
    + rewrite Hnil in Hmany. cbn [List.length] in Hmany. lia.
    + lia.
  - intros pre line rest Hpre Hk. unfold fails, parse.
    rewrite parse_lines_app, (parse_lines_others pre) by assumption.
    cbn [bind parse_lines].
    destruct (step_elapsed_unbound (0 + List.length pre) line initial Hk eq_refl)
      as (e & ->).
    exists e. reflexivity.
  - intros pre l1 mid rest. apply size_without_elapsed_fails.
Qed.

(** C9 as stated fails: the empty log has fewer matching lines than the
    list has names, and a log with a repeated Elapsed line is not strictly
    interleaved, yet the parser ends normally on both. *)
Lemma parser_accepts_short_and_repeated_logs :
  (List.length (filter (fun l => match kind_of l with KOther => false | _ => true end)
                       ([] : list string))
   < List.length circuit_names)%nat /\
  parse [] = Ok [] /\
  ~ fails [] /\
  parse ["The size of the serialized object is 1234 bytes";
         "Elapsed: 12.5ms"; "Elapsed: 0.5ms"]%string =
    Ok [("amortized_aco_512_12.txt"%string, 1234,
         S754_finite false 4503599627370496 (-53))] /\
  ~ fails ["The size of the serialized object is 1234 bytes";
           "Elapsed: 12.5ms"; "Elapsed: 0.5ms"]%string.
Proof.
  split; [vm_compute; lia|]. split; [reflexivity|]. split.
  - intros (e & He). discriminate He.
  - split; [vm_compute; reflexivity|].
    intros (e & He). vm_compute in He. discriminate He.
Qed.

(** A log with all 25 circuits, each with its size line and its Elapsed
    line: the name is taken at the index of the line, not of the circuit,
    and the fourteenth size line, at index 26, has none. *)
Example full_interleaved_log_raises :
  parse (flat_map (fun _ => ["The size of the serialized object is 1234 bytes";
                             "Elapsed: 12.5ms"]%string) (seq 0 25)) =
  Raise IndexError.
Proof. vm_compute. reflexivity. Qed.

(** Two circuits: the second row carries the third name. *)
Example two_circuits_log :
  parse ["The size of the serialized object is 10 bytes"; "Elapsed: 0.5ms";
         "The size of the serialized object is 20 bytes"; "Elapsed: 0.25ms"]%string =
  Ok [("amortized_aco_512_12.txt"%string, 10, S754_finite false 4503599627370496 (-53));
      ("amortized_aco_128_8.txt"%string, 20, S754_finite false 4503599627370496 (-54))].
Proof. vm_compute. reflexivity. Qed.

End ParserFacts.

(** ** Further properties of the combinatorics helper *)

Section NcrMore.

(** X1: [ncr] is symmetric, for all integers: the first line replaces [r]
    by the smaller of [r] and [n-r], which is the same for [r] and [n-r]. *)
Theorem ncr_symmetric (n r : Z) : ncr n r = ncr n (n - r).
Proof.
  unfold ncr. cbv zeta. rewrite !py_min_spec.
  replace (n - (n - r)) with r by lia. rewrite Z.min_comm. reflexivity.
Qed.

(** X2: outside 0 < r < n both ranges are empty and [ncr] returns 1: also
    for r < 0 and for r > n, where the binomial coefficient is 0. *)
Theorem ncr_outside_is_one (n r : Z) : r <= 0 \/ n <= r -> ncr n r = 1.
Proof.
  intros H. unfold ncr. cbv zeta. rewrite py_min_spec.
  set (r' := Z.min r (n - r)). assert (Hr' : r' <= 0) by (unfold r'; lia).
  unfold ncr_numer, ncr_denom.
  rewrite range_down_neg by assumption. rewrite range_up.
  replace (Z.to_nat (r' + 1 - 1)) with 0%nat by lia. reflexivity.
Qed.

Lemma ncr_outside_is_one_witness : ncr 3 5 = 1 /\ ncr 3 (-2) = 1.
Proof.
  split; [apply (ncr_outside_is_one 3 5)|apply (ncr_outside_is_one 3 (-2))]; lia.
Defined.

(** X3: Pascal's rule holds on the results of [ncr]. *)
Theorem ncr_pascal (n r : Z) :
  0 <= r < n -> ncr (n + 1) (r + 1) = ncr n r + ncr n (r + 1).
Proof.
  intros H. rewrite !ncr_binom by lia.
  replace (Z.to_nat (n + 1)) with (S (Z.to_nat n)) by lia.
  replace (Z.to_nat (r + 1)) with (S (Z.to_nat r)) by lia.
  cbn [binom]. lia.
Qed.

Lemma ncr_pascal_witness : ncr (5 + 1) (2 + 1) = ncr 5 2 + ncr 5 (2 + 1).
Proof. apply (ncr_pascal 5 2). lia. Defined.

End NcrMore.

(** ** Further properties of the estimator and of [err] *)

Section EstimatorMore.

(** [a / a] is [1.0] for a positive integer. *)
Lemma int_truediv_same (a : Z) : 1 <= a -> Float.int_truediv a a = Ok Float.one.
Proof.
  intros Ha. unfold Float.int_truediv.
  destruct (Z.eqb_spec a 0) as [|_]; [lia|].
  destruct a as [|p|p]; try lia. cbn [Float.exact].
  assert (Hcore : SFdiv_core_binary Float.prec Float.emax (Z.pos p) 0 (Z.pos p) 0 =
                  (2 ^ 53, -53, loc_Exact)).
  { unfold SFdiv_core_binary. cbv zeta.
    replace (Zdigits2 (Z.pos p) + 0 - (Zdigits2 (Z.pos p) + 0)) with 0 by lia.
    change (Z.min (fexp Float.prec Float.emax 0) (0 - 0)) with (-53).
    change (0 - 0 - -53) with 53. cbv iota beta.
    rewrite Z.shiftl_mul_pow2 by lia. rewrite div_eucl_pair.
    rewrite Z.mul_comm, Z.div_mul, Z.mod_mul by lia.
    rewrite new_location_zero. reflexivity. }
  unfold SFdiv. rewrite Hcore. vm_compute. reflexivity.
Qed.

Lemma err_sg_top (M tau n : Z) :
  0 < tau < M ->
  err_sg M tau n M =
  match Float.truediv_int Float.one (n ^ tau) with
  | Raise OverflowError => Ok Float.zero
  | r => r
  end.
Proof.
  intros Ht. unfold err_sg, int_pow, ratio. cbv zeta.
  replace (M - M + tau) with tau by lia.
  destruct (Z.ltb_spec tau 0) as [|_]; [lia|]. cbn [bind].
  rewrite int_truediv_same by (apply ncr_pos; lia). reflexivity.
Qed.

(** X4: for rho = M the estimator does not depend on M: it is [1.0 / n**tau],
    and 0.0 when that division raises OverflowError. *)
Theorem err_sg_at_rho_M (M tau n : Z) :
  0 < tau < M ->
  Float.int_truediv (ncr M (M - tau)) (ncr M (M - tau)) = Ok Float.one /\
  err_sg M tau n M =
  match Float.truediv_int Float.one (n ^ tau) with
  | Raise OverflowError => Ok Float.zero
  | r => r
  end.
Proof.
  intros Ht. split; [|apply err_sg_top; assumption].
  apply int_truediv_same. apply ncr_pos. lia.
Qed.

Lemma err_sg_at_rho_M_witness :
  err_sg 64 8 16 64 = Ok (S754_finite false 4503599627370496 (-84)).
Proof.
  rewrite (proj2 (err_sg_at_rho_M 64 8 16 ltac:(lia))). vm_compute. reflexivity.
Defined.

Lemma small_tau_term_not_below_target (tau : Z) :
  1 <= tau <= 15 ->
  exists v, Float.truediv_int Float.one (n ^ tau) = Ok v /\ nonneg v /\ fle target v.
Proof.
  intros Ht.
  assert (Hall : forallb (fun t =>
             match Float.truediv_int Float.one (n ^ t) with
             | Ok (S754_finite false m e) => Float.leb target (S754_finite false m e)
             | _ => false
             end) (Py.range2 1 16) = true) by (vm_compute; reflexivity).
  rewrite forallb_forall in Hall.
  specialize (Hall tau ltac:(apply range2_In; lia)).
  destruct (Float.truediv_int Float.one (n ^ tau)) as [[s|s| |[|] m e]|e|];
    try discriminate Hall.
  exists (S754_finite false m e). split; [reflexivity|]. split; [exact I|].
  apply leb_fle; [exact I|exact I|exact Hall].
Qed.

(** X5: with the script's n = 16 and target 0.5^60, no pair with
    tau <= 15 is ever recorded, whatever M: the term for rho = M alone,
    16^-tau, is not below the target. *)
Theorem err_rejects_small_tau (M tau : Z) (lst : list (Z * Z)) :
  0 < tau < M -> tau <= 15 -> err M tau n lst = Ok lst.
Proof.
  intros Ht H15.
  destruct (err_base_max M tau n (proj1 Ht) ltac:(unfold n; lia))
    as (w & Hw & Hle & Hmax & _).
  destruct (Hmax M ltac:(lia)) as (v & Hv & Hvw).
  rewrite err_sg_top in Hv by assumption.
  destruct (small_tau_term_not_below_target tau ltac:(lia)) as (v' & Hv' & Hn' & Htv).
  rewrite Hv' in Hv. injection Hv as <-.
  pose proof (le_one_nonneg w Hle) as Hwn.
  apply leb_fle in Hvw; try assumption.
  unfold err. rewrite Hw. cbn [bind].
  destruct (Float.ltb w target) eqn:Hlt; [|reflexivity].
  apply ltb_fle in Hlt; [|assumption|exact I].
  exfalso. apply Hlt. eapply fle_trans; eassumption.
Qed.

Lemma err_rejects_small_tau_witness : err 504 15 n [(144, 16)] = Ok [(144, 16)].
Proof. apply (err_rejects_small_tau 504 15 [(144, 16)]); lia. Defined.

(** X6: for tau <= 0 the rho range is empty, [base] stays 0.0, and the
    pair is recorded without any evaluation of the estimator. *)
Theorem err_records_when_range_empty (M tau n : Z) (lst : list (Z * Z)) :
  tau <= 0 ->
  Py.range2 (M - tau + 1) (M + 1) = [] /\
  err M tau n lst = Ok (lst ++ [(M, tau)]).
Proof.
  intros Ht. assert (He : Py.range2 (M - tau + 1) (M + 1) = [])
    by (apply range2_empty; lia).
  split; [exact He|]. unfold err, err_base. rewrite He. reflexivity.
Qed.

Lemma err_records_when_range_empty_witness : err 64 0 16 [] = Ok [(64, 0)].
Proof. apply (err_records_when_range_empty 64 0 16 []). lia. Defined.

(** X7: with n = 0 the first rho already makes c = 0, the division
    [d / c] raises ZeroDivisionError, which the handler of [err_sg] does
    not catch, and [err] ends with that exception. *)
Theorem err_zero_parties_raises (M tau : Z) (lst : list (Z * Z)) :
  0 < tau < M ->
  err_sg M tau 0 (M - tau + 1) = Raise ZeroDivisionError /\
  err M tau 0 lst = Raise ZeroDivisionError.
Proof.
  intros Ht.
  assert (Hsg : err_sg M tau 0 (M - tau + 1) = Raise ZeroDivisionError).
  { unfold err_sg, int_pow, ratio. cbv zeta.
    replace (M - tau + 1 - M + tau) with 1 by lia. cbn [Z.ltb Z.compare bind].
    destruct (int_truediv_le_one (ncr (M - tau + 1) (M - tau)) (ncr M (M - tau)))
      as (d & -> & _).
    { split; [apply ncr_pos|apply ncr_mono]; lia. }
    reflexivity. }
  split; [exact Hsg|].
  unfold err, err_base. rewrite range2_cons by lia.
  cbn [err_loop]. rewrite Hsg. reflexivity.
Qed.

Lemma err_zero_parties_raises_witness : err 64 8 0 [] = Raise ZeroDivisionError.
Proof. apply (err_zero_parties_raises 64 8 []). lia. Defined.

End EstimatorMore.

(** ** Further properties of the search and of the selector *)

Section SearchMore.

(** X8: over ranges with 0 < tau < M and with n >= 1 no call of [err]
    raises, and the search appends to the list exactly the pairs whose
    worst-case error is below the target, in the order of the loops: M
    outermost, tau innermost; the script then prints the progress line and
    the selection among these pairs. *)
Theorem search_is_filter (Ms taus : list Z) (n : Z) (lst : list (Z * Z)) :
  (forall M tau, In M Ms -> In tau taus -> 0 < tau < M) -> 1 <= n ->
  search Ms taus n lst = Ok (lst ++ filter (passes n) (list_prod Ms taus)) /\
  run Ms taus n =
    Ok [PrintStr "finish computing";
        PrintTuple (select (filter (passes n) (list_prod Ms taus)))].
Proof.
  intros Hdom Hn.
  assert (Hok : forall M tau, In M Ms -> In tau taus ->
                exists w, err_base M tau n = Ok w).
  { intros M tau HM Ht.
    destruct (err_base_max M tau n (proj1 (Hdom M tau HM Ht)) Hn) as (w & Hw & _).
    exists w. exact Hw. }
  split; [apply search_filter; exact Hok|].
  unfold run. rewrite (search_filter n Ms taus [] Hok). reflexivity.
Qed.

Lemma search_is_filter_witness :
  search [64; 72] [8; 24] 16 [] = Ok [(72, 24)].
Proof.
  rewrite (proj1 (search_is_filter [64; 72] [8; 24] 16 []
                    ltac:(intros M tau [<-|[<-|[]]] [<-|[<-|[]]]; lia) ltac:(lia))).
  vm_compute. reflexivity.
Defined.

Lemma better_eq_antisym (a b : Z * Z) : better_eq a b -> better_eq b a -> a = b.
Proof.
  unfold better_eq. destruct a as [aM at_], b as [bM bt]. cbn [fst snd].
  intros H1 H2. f_equal; lia.
Qed.

(** X9: the selected pair does not depend on the order of the candidate
    list. *)
Theorem select_permutation_invariant (l l' : list (Z * Z)) :
  Permutation l l' -> select l = select l'.
Proof.
  intros Hp. unfold select.
  destruct (select_from_spec l sentinel) as (Hin & Hs & Hall).
  destruct (select_from_spec l' sentinel) as (Hin' & Hs' & Hall').
  apply better_eq_antisym.
  - destruct Hin' as [<-|Hin']; [exact Hs|].
    apply Hall. eapply Permutation_in; [apply Permutation_sym; exact Hp|exact Hin'].
  - destruct Hin as [<-|Hin]; [exact Hs'|].
    apply Hall'. eapply Permutation_in; [exact Hp|exact Hin].
Qed.

Lemma select_permutation_invariant_witness :
  select [(152, 24); (144, 16); (72, 24)] = select [(72, 24); (152, 24); (144, 16)].
Proof.
  apply select_permutation_invariant.
  apply Permutation_sym, (Permutation_cons_app [(152, 24); (144, 16)] []).
  rewrite app_nil_r. apply Permutation_refl.
Defined.

(** X10: the scan ends on the sentinel exactly when no candidate comes
    before (10000, 10000) in the order of the selector: a candidate with
    tau > 10000, or with tau = 10000 and M >= 10000, never replaces it. *)
Theorem select_keeps_sentinel_iff (lst : list (Z * Z)) :
  select lst = sentinel <->
  (forall tp, In tp lst ->
     10000 < snd tp \/ (snd tp = 10000 /\ 10000 <= fst tp)).
Proof.
  unfold select.
  destruct (select_from_spec lst sentinel) as (Hin & Hs & Hall).
  split.
  - intros Heq tp Htp. specialize (Hall tp Htp). rewrite Heq in Hall.
    unfold better_eq, sentinel in Hall. cbn [fst snd] in Hall. lia.
  - intros Hno. destruct Hin as [<-|Hin]; [reflexivity|].
    apply better_eq_antisym; [exact Hs|].
    specialize (Hno _ Hin). unfold better_eq. cbn [fst snd sentinel].
    change (snd sentinel) with 10000. change (fst sentinel) with 10000. lia.
Qed.

End SearchMore.

(** ** Further properties of the log parser *)

Module ParserMore.

Import LogParser ParserFacts.

Lemma parse_lines_ok_size_index (lines : list string) : forall i st st',
  parse_lines i lines st = Ok st' ->
  forall j line, nth_error lines j = Some line -> kind_of line = KSize ->
  (i + j < List.length circuit_names)%nat.
Proof.
  induction lines as [|l lines IH]; intros i st st' Hok j line Hj Hk.
  - destruct j; discriminate Hj.
  - cbn [parse_lines] in Hok.
    destruct (step i l st) as [s1| |] eqn:Hstep; try discriminate Hok.
    cbn [bind] in Hok. destruct j as [|j]; cbn [nth_error] in Hj.
    + injection Hj as ->.
      destruct (step_size_ok i line st s1 Hk Hstep) as (name & sz & Hn & _).
      rewrite Nat.add_0_r. apply nth_error_Some. congruence.
    + specialize (IH (S i) s1 st' Hok j line Hj Hk). lia.
Qed.

Lemma write_rows_not_index (d : dict) : write_rows d <> Raise IndexError.
Proof.
  destruct (write_rows_cases d) as [(rows & ->)| ->]; discriminate.
Qed.

Lemma parse_lines_index_error (lines : list string) : forall i st,
  parse_lines i lines st = Raise IndexError ->
  exists j line, nth_error lines j = Some line /\ kind_of line = KSize /\
                 (List.length circuit_names <= i + j)%nat.
Proof.
  induction lines as [|l lines IH]; intros i st Hr; [discriminate Hr|].
  cbn [parse_lines] in Hr.
  destruct (step i l st) as [s1|e|] eqn:Hstep; cbn [bind] in Hr.
  - destruct (IH (S i) s1 Hr) as (j & line & Hj & Hk & Hle).
    exists (S j), line. repeat split; try assumption. lia.
  - injection Hr as ->. exists 0%nat, l. unfold step in Hstep.
    destruct (kind_of l) eqn:Hk.
    + destruct (re_search is_digit l); [|discriminate Hstep].
      destruct (nth_error circuit_names i) eqn:Hn; [discriminate Hstep|].
      apply nth_error_None in Hn.
      split; [reflexivity|split; [reflexivity|lia]].
    + destruct (re_search is_digit_or_dot l) as [tok|]; [|discriminate Hstep].
      destruct (py_float_cases tok) as [(t & Ht)|Ht]; rewrite Ht in Hstep;
        cbn [bind] in Hstep; [|discriminate Hstep].
      destruct (circuit_name st) as [nm|]; [|discriminate Hstep].
      destruct (dict_get (parsed_data st) nm); discriminate Hstep.
    + discriminate Hstep.
  - discriminate Hr.
Qed.

(** X11: the name of a size line is taken at the index of the line in the
    file, so a size line at an index that is not below the number of names
    makes the parser fail, and IndexError is raised only by such a line. *)
Theorem size_line_index_out_of_range :
  (forall lines i line,
     nth_error lines i = Some line -> kind_of line = KSize ->
     (List.length circuit_names <= i)%nat -> fails lines) /\
  (forall lines,
     parse lines = Raise IndexError ->
     exists i line, nth_error lines i = Some line /\ kind_of line = KSize /\
                    (List.length circuit_names <= i)%nat).
Proof.
  split.
  - intros lines i line Hi Hk Hle. apply not_ok_fails. intros st rows Hloop _.
    pose proof (parse_lines_ok_size_index lines 0 initial st Hloop i line Hi Hk). lia.
  - intros lines Hr. unfold parse in Hr.
    destruct (parse_lines 0 lines initial) as [st|e|] eqn:Hloop; cbn [bind] in Hr.
    + exfalso. exact (write_rows_not_index _ Hr).
    + injection Hr as ->. exact (parse_lines_index_error lines 0 initial Hloop).
    + discriminate Hr.
Qed.

(** X13: lines after the last matching line are ignored. *)
Theorem trailing_lines_ignored (lines post : list string) :
  Forall is_other post -> parse (lines ++ post) = parse lines.
Proof.
  intros Hpost. unfold parse. rewrite parse_lines_app.
  destruct (parse_lines 0 lines initial) as [st|e|]; cbn [bind]; try reflexivity.
  rewrite parse_lines_others by assumption. reflexivity.
Qed.

Lemma trailing_lines_ignored_witness :
  parse (["The size of the serialized object is 10 bytes"%string;
          "Elapsed: 0.5ms"%string] ++ ["done"%string; "bye"%string])%list =
  parse ["The size of the serialized object is 10 bytes"; "Elapsed: 0.5ms"]%string.
Proof.
  apply trailing_lines_ignored.
  repeat constructor.
Defined.

Lemma step_inv (i : nat) (line : string) (st st' : state) :
  step i line st = Ok st' ->
  (kind_of line = KSize /\
   exists tok name,
     re_search is_digit line = Some tok /\ nth_error circuit_names i = Some name /\
     st' = {| parsed_data :=
                dict_set (parsed_data st) name
                         {| size := int_of_digits tok 0; time_ms := None |};
              circuit_name := Some name |}) \/
  (kind_of line = KElapsed /\
   exists name e t,
     circuit_name st = Some name /\ dict_get (parsed_data st) name = Some e /\
     st' = {| parsed_data :=
                dict_set (parsed_data st) name {| size := size e; time_ms := Some t |};
              circuit_name := Some name |}) \/
  (kind_of line = KOther /\ st' = st).
Proof.
  unfold step. destruct (kind_of line).
  - destruct (re_search is_digit line) as [tok|]; [|discriminate].
    destruct (nth_error circuit_names i) as [name|]; [|discriminate].
    intros [= <-]. left. split; [reflexivity|]. exists tok, name. repeat split.
  - destruct (re_search is_digit_or_dot line) as [tok|]; [|discriminate].
    destruct (py_float tok) as [t| |]; cbn [bind]; try discriminate.
    destruct (circuit_name st) as [name|]; [|discriminate].
    destruct (dict_get (parsed_data st) name) as [e|] eqn:Hg; [|discriminate].
    intros [= <-]. right; left. split; [reflexivity|]. exists name, e, t.
    repeat split. exact Hg.
  - intros [= <-]. right; right. split; reflexivity.
Qed.

Lemma dict_set_absent (d : dict) (k : string) (v : entry) :
  ~ In k (map fst d) -> dict_set d k v = d ++ [(k, v)].
Proof.
  induction d as [|[k' v'] d IH]; intros Hn; cbn [dict_set app]; [reflexivity|].
  cbn [map fst In] in Hn.
  destruct (String.eqb_spec k' k) as [->|_]; [exfalso; apply Hn; now left|].
  rewrite IH by (intros H; apply Hn; now right). reflexivity.
Qed.

Lemma dict_set_present (d : dict) (k : string) (v e : entry) :
  dict_get d k = Some e -> size v = size e ->
  key_sizes (dict_set d k v) = key_sizes d /\
  map fst (dict_set d k v) = map fst d.
Proof.
  intros Hg Hs. induction d as [|[k' v'] d IH]; [discriminate Hg|].
  cbn [dict_get] in Hg. cbn [dict_set].
  destruct (String.eqb k' k).
  - injection Hg as ->. unfold key_sizes. cbn [map fst snd]. rewrite Hs. split; reflexivity.
  - destruct (IH Hg) as [H1 H2]. unfold key_sizes in *. cbn [map fst snd].
    rewrite H1, H2. split; reflexivity.
Qed.

Lemma write_rows_key_sizes (d : dict) : forall rows,
  write_rows d = Ok rows ->
  map (fun r => (fst (fst r), snd (fst r))) rows = key_sizes d.
Proof.
  induction d as [|[k e] d IH]; intros rows Hw; cbn [write_rows] in Hw.
  - injection Hw as <-. reflexivity.
  - destruct (time_ms e) as [t|]; [|discriminate Hw].
    destruct (write_rows d) as [rows'| |]; cbn [bind] in Hw; try discriminate Hw.
    injection Hw as <-. unfold key_sizes in *. cbn [map fst snd].
    rewrite (IH rows' eq_refl). reflexivity.
Qed.

(** Every key of [parsed_data] is the name at an index below [i]. *)
Lemma parse_lines_key_sizes (lines : list string) : forall i st st',
  parse_lines i lines st = Ok st' ->
  (forall k, In k (map fst (parsed_data st)) ->
     exists j, (j < i)%nat /\ nth_error circuit_names j = Some k) ->
  key_sizes (parsed_data st') = key_sizes (parsed_data st) ++ size_entries i lines.
Proof.
  induction lines as [|l lines IH]; intros i st st' Hok Hkeys.
  - cbn [parse_lines] in Hok. injection Hok as <-. cbn [size_entries].
    rewrite app_nil_r. reflexivity.
  - cbn [parse_lines] in Hok.
    destruct (step i l st) as [s1| |] eqn:Hstep; try discriminate Hok.
    cbn [bind] in Hok. cbn [size_entries].
    destruct (step_inv i l st s1 Hstep)
      as [(Hk & tok & name & Htok & Hname & ->)
         |[(Hk & name & e & t & Hc & Hg & ->)|(Hk & ->)]]; rewrite Hk.
    + rewrite Htok, Hname.
      assert (Habs : ~ In name (map fst (parsed_data st))).
      { intros Hin. destruct (Hkeys name Hin) as (j & Hj & Hnj).
        assert (j = i) by (eapply circuit_names_inj; eassumption). lia. }
      rewrite (IH (S i) _ st' Hok); cbn [parsed_data].
      * rewrite dict_set_absent by assumption. unfold key_sizes.
        rewrite map_app, <- app_assoc. reflexivity.
      * intros k Hin. rewrite dict_set_absent in Hin by assumption.
        rewrite map_app in Hin. apply in_app_or in Hin. destruct Hin as [Hin|[<-|[]]].
        -- destruct (Hkeys k Hin) as (j & Hj & Hnj). exists j. split; [lia|assumption].
        -- exists i. split; [lia|assumption].
    + destruct (dict_set_present (parsed_data st) name
                  {| size := size e; time_ms := Some t |} e Hg eq_refl) as [H1 H2].
      rewrite (IH (S i) _ st' Hok); cbn [parsed_data].
      * rewrite H1. reflexivity.
      * intros k Hin. rewrite H2 in Hin.
        destruct (Hkeys k Hin) as (j & Hj & Hnj). exists j. split; [lia|assumption].
    + apply (IH (S i) st st' Hok). intros k Hin.
      destruct (Hkeys k Hin) as (j & Hj & Hnj). exists j. split; [lia|assumption].
Qed.

Lemma size_entries_length_ok (lines : list string) : forall i st st',
  parse_lines i lines st = Ok st' ->
  List.length (size_entries i lines) = List.length (filter is_size_line lines).
Proof.
  induction lines as [|l lines IH]; intros i st st' Hok; [reflexivity|].
  cbn [parse_lines] in Hok.
  destruct (step i l st) as [s1| |] eqn:Hstep; try discriminate Hok.
  cbn [bind] in Hok. cbn [size_entries filter]. unfold is_size_line at 1.
  specialize (IH (S i) s1 st' Hok).
  destruct (step_inv i l st s1 Hstep)
    as [(Hk & tok & name & Htok & Hname & _)|[(Hk & _)|(Hk & _)]]; rewrite Hk.
  - rewrite Htok, Hname. cbn [List.length]. rewrite IH. reflexivity.
  - exact IH.
  - exact IH.
Qed.

(** X12: when the parser ends normally it writes one row per size line,
    in the order of the log; the row of a size line carries the name at
    the index of that line in the file and the integer of the first run of
    digits of the line. *)
Theorem rows_follow_size_lines (lines : list string)
  (rows : list (string * Z * Float.float)) :
  parse lines = Ok rows ->
  map (fun r => (fst (fst r), snd (fst r))) rows = size_entries 0 lines /\
  List.length rows = List.length (filter is_size_line lines).
Proof.
  intros Hp. unfold parse in Hp.
  destruct (parse_lines 0 lines initial) as [st| |] eqn:Hloop; try discriminate Hp.
  cbn [bind] in Hp.
  assert (Hks : key_sizes (parsed_data st) = size_entries 0 lines).
  { rewrite (parse_lines_key_sizes lines 0 initial st Hloop); [reflexivity|].
    intros k []. }
  assert (Hm : map (fun r => (fst (fst r), snd (fst r))) rows = size_entries 0 lines).
  { rewrite (write_rows_key_sizes _ rows Hp). exact Hks. }
  split; [exact Hm|].
  rewrite <- (size_entries_length_ok lines 0 initial st Hloop), <- Hm, length_map.
  reflexivity.
Qed.

Lemma rows_follow_size_lines_witness :
  map (fun r : string * Z * Float.float => (fst (fst r), snd (fst r)))
      [("amortized_aco_512_12.txt"%string, 10, S754_finite false 4503599627370496 (-53));
       ("amortized_aco_128_8.txt"%string, 20, S754_finite false 4503599627370496 (-54))]
  = size_entries 0
      ["The size of the serialized object is 10 bytes"; "Elapsed: 0.5ms";
       "The size of the serialized object is 20 bytes"; "Elapsed: 0.25ms"]%string.
Proof.
  apply (rows_follow_size_lines
           ["The size of the serialized object is 10 bytes"; "Elapsed: 0.5ms";
            "The size of the serialized object is 20 bytes"; "Elapsed: 0.25ms"]%string).
  vm_compute. reflexivity.
Defined.

Lemma step_bound (i : nat) (line : string) (st : state) (nm : string) :
  circuit_name st = Some nm ->
  step i line st <> Raise NameError /\
  (forall st', step i line st = Ok st' -> exists nm', circuit_name st' = Some nm').
Proof.
  intros Hc. split.
  - unfold step. destruct (kind_of line).
    + destruct (re_search is_digit line); [|discriminate].
      destruct (nth_error circuit_names i); discriminate.
    + destruct (re_search is_digit_or_dot line) as [tok|]; [|discriminate].
      destruct (py_float_cases tok) as [(t & ->)| ->]; cbn [bind]; [|discriminate].
      rewrite Hc. destruct (dict_get (parsed_data st) nm); discriminate.
    + discriminate.
  - intros st' Hstep.
    destruct (step_inv i line st st' Hstep)
      as [(_ & tok & name & _ & _ & ->)|[(_ & name & e & t & _ & _ & ->)|(_ & ->)]].
    + exists name. reflexivity.
    + exists name. reflexivity.
    + exists nm. exact Hc.
Qed.

Lemma parse_lines_bound_no_name_error (lines : list string) : forall i st nm,
  circuit_name st = Some nm -> parse_lines i lines st <> Raise NameError.
Proof.
  induction lines as [|l lines IH]; intros i st nm Hc; cbn [parse_lines]; [discriminate|].
  destruct (step_bound i l st nm Hc) as [Hne Hkeep].
  destruct (step i l st) as [s1|e|]; cbn [bind].
  - destruct (Hkeep s1 eq_refl) as (nm' & Hc'). apply (IH (S i) s1 nm' Hc').
  - intros [= ->]. apply Hne. reflexivity.
  - discriminate.
Qed.

Lemma parse_lines_name_error (lines : list string) : forall i st,
  circuit_name st = None -> parse_lines i lines st = Raise NameError ->
  exists pre line rest tok t,
    lines = pre ++ line :: rest /\ Forall is_other pre /\
    kind_of line = KElapsed /\
    re_search is_digit_or_dot line = Some tok /\ py_float tok = Ok t.
Proof.
  induction lines as [|l lines IH]; intros i st Hc Hr; [discriminate Hr|].
  cbn [parse_lines] in Hr.
  destruct (step i l st) as [s1|e|] eqn:Hstep; cbn [bind] in Hr.
  - destruct (step_inv i l st s1 Hstep)
      as [(_ & tok & name & _ & _ & ->)|[(_ & name & e & t & Hc' & _)|(Hk & ->)]].
    + exfalso. eapply (parse_lines_bound_no_name_error lines (S i) _ name);
        [|exact Hr]. reflexivity.
    + congruence.
    + destruct (IH (S i) st Hc Hr) as (pre & line & rest & tok & t & -> & Hpre & Hrest).
      exists (l :: pre), line, rest, tok, t. split; [reflexivity|].
      split; [constructor; assumption|exact Hrest].
  - injection Hr as ->. unfold step in Hstep. destruct (kind_of l) eqn:Hk.
    + destruct (re_search is_digit l); [|discriminate Hstep].
      destruct (nth_error circuit_names i); discriminate Hstep.
    + destruct (re_search is_digit_or_dot l) as [tok|] eqn:Htok; [|discriminate Hstep].
      destruct (py_float_cases tok) as [(t & Ht)|Ht]; rewrite Ht in Hstep;
        cbn [bind] in Hstep; [|discriminate Hstep].
      exists [], l, lines, tok, t. repeat split; try assumption. constructor.
    + discriminate Hstep.
  - discriminate Hr.
Qed.

Lemma write_rows_not_name (d : dict) : write_rows d <> Raise NameError.
Proof.
  destruct (write_rows_cases d) as [(rows & ->)| ->]; discriminate.
Qed.

(** X14: NameError is raised exactly when the first line that matches
    one of the two prefixes is an Elapsed line with a well-formed number:
    [circuit_name] is still unbound there, and once a size line has bound
    it, it stays bound. *)
Theorem name_error_iff_elapsed_first (lines : list string) :
  parse lines = Raise NameError <->
  exists pre line rest tok t,
    lines = pre ++ line :: rest /\ Forall is_other pre /\
    kind_of line = KElapsed /\
    re_search is_digit_or_dot line = Some tok /\ py_float tok = Ok t.
Proof.
  split.
  - intros Hr. unfold parse in Hr.
    destruct (parse_lines 0 lines initial) as [st|e|] eqn:Hloop; cbn [bind] in Hr.
    + exfalso. exact (write_rows_not_name _ Hr).
    + injection Hr as ->. exact (parse_lines_name_error lines 0 initial eq_refl Hloop).
    + discriminate Hr.
  - intros (pre & line & rest & tok & t & -> & Hpre & Hk & Htok & Ht).
    unfold parse. rewrite parse_lines_app, (parse_lines_others pre) by assumption.
    cbn [bind parse_lines]. unfold step. rewrite Hk, Htok, Ht. reflexivity.
Qed.

Lemma in_keys_dict_set (d : dict) (k x : string) (v : entry) :
  In x (map fst (dict_set d k v)) <-> x = k \/ In x (map fst d).
Proof.
  induction d as [|[k' v'] d IH]; cbn [dict_set map fst In].
  - split; [intros [<-|[]]; now left|intros [->|[]]; now left].
  - destruct (String.eqb_spec k' k) as [->|Hne]; cbn [map fst In].
    + split; [intros [<-|H]; [now left|right; now right]|].
      intros [->|[<-|H]]; [now left|now left|now right].
    + rewrite IH. tauto.
Qed.

Lemma dict_set_NoDup (d : dict) (k : string) (v : entry) :
  NoDup (map fst d) -> NoDup (map fst (dict_set d k v)).
Proof.
  induction d as [|[k' v'] d IH]; intros Hn; cbn [dict_set map fst].
  - constructor; [intros []|constructor].
  - cbn [map fst] in Hn. inversion Hn as [|? ? Hnot Hd]; subst.
    destruct (String.eqb_spec k' k) as [->|Hne]; cbn [map fst].
    + constructor; assumption.
    + constructor; [|exact (IH Hd)].
      intros Hin. apply in_keys_dict_set in Hin. destruct Hin as [->|Hin]; contradiction.
Qed.

Lemma in_keys_dict_get (d : dict) (k : string) :
  In k (map fst d) -> exists e, dict_get d k = Some e.
Proof.
  induction d as [|[k' v'] d IH]; cbn [map fst In dict_get]; [intros []|].
  intros [->|Hin].
  - rewrite String.eqb_refl. eexists; reflexivity.
  - destruct (String.eqb k' k); [eexists; reflexivity|exact (IH Hin)].
Qed.

Lemma dict_set_timed (d : dict) (k : string) (v : entry) (x : option string) :
  timed_except x d -> (Some k = x \/ time_ms v <> None) ->
  timed_except x (dict_set d k v).
Proof.
  unfold timed_except. intros Hd Hv.
  induction d as [|[k' v'] d IH]; cbn [dict_set].
  - constructor; [exact Hv|constructor].
  - inversion Hd as [|? ? Hh Ht]; subst.
    destruct (String.eqb_spec k' k) as [->|_].
    + constructor; [exact Hv|exact Ht].
    + constructor; [exact Hh|exact (IH Ht)].
Qed.

Lemma timed_except_weaken (d : dict) (x : option string) :
  timed_except None d -> timed_except x d.
Proof.
  unfold timed_except. intros H. eapply Forall_impl; [|exact H].
  intros kv [Hk|Ht]; [discriminate Hk|now right].
Qed.

Lemma timed_except_absent (d : dict) (k : string) :
  ~ In k (map fst d) -> timed_except (Some k) d -> timed_except None d.
Proof.
  unfold timed_except. induction d as [|[k' v'] d IH]; intros Hn Hd; [constructor|].
  inversion Hd as [|? ? Hh Ht]; subst. cbn [map fst In] in Hn. cbn [fst snd] in Hh.
  constructor.
  - destruct Hh as [Hk|Hk]; [|now right].
    injection Hk as ->. exfalso. apply Hn. now left.
  - apply IH; [|exact Ht]. intros H. apply Hn. now right.
Qed.

Lemma dict_set_timed_clears (d : dict) (k : string) (v : entry) :
  NoDup (map fst d) -> timed_except (Some k) d -> time_ms v <> None ->
  timed_except None (dict_set d k v).
Proof.
  intros Hn Hd Hv. induction d as [|[k' v'] d IH]; cbn [dict_set].
  - constructor; [now right|constructor].
  - cbn [map fst] in Hn. inversion Hn as [|? ? Hnot Hnd]; subst.
    unfold timed_except in Hd. inversion Hd as [|? ? Hh Ht]; subst. cbn [fst snd] in Hh.
    destruct (String.eqb_spec k' k) as [->|Hne].
    + constructor; [now right|]. apply (timed_except_absent d k Hnot Ht).
    + constructor; [|exact (IH Hnd Ht)].
      destruct Hh as [Hk|Hk]; [injection Hk as ->; contradiction|now right].
Qed.

Lemma step_well_formed (i : nat) (line : string) (b : bool) (st st' : state) :
  well_formed b st -> step i line st = Ok st' ->
  match kind_of line with
  | KSize => b = false -> well_formed true st'
  | KElapsed => well_formed false st'
  | KOther => well_formed b st'
  end.
Proof.
  intros (Hnd & Hkey & Ht) Hstep.
  destruct (step_inv i line st st' Hstep)
    as [(Hk & tok & name & _ & _ & ->)|[(Hk & name & e & t & Hc & Hg & ->)|(Hk & ->)]];
    rewrite Hk.
  - intros ->. repeat split; cbn [parsed_data circuit_name].
    + apply dict_set_NoDup. exact Hnd.
    + intros nm [= <-]. apply in_keys_dict_set. now left.
    + apply dict_set_timed; [apply timed_except_weaken; exact Ht|now left].
  - repeat split; cbn [parsed_data circuit_name].
    + apply dict_set_NoDup. exact Hnd.
    + intros nm [= <-]. apply in_keys_dict_set. now left.
    + destruct b.
      * rewrite Hc in Ht. apply dict_set_timed_clears; [exact Hnd|exact Ht|discriminate].
      * apply dict_set_timed; [exact Ht|right; discriminate].
  - repeat split; assumption.
Qed.

Lemma step_no_key_error (i : nat) (line : string) (st : state) :
  (forall nm, circuit_name st = Some nm -> In nm (map fst (parsed_data st))) ->
  step i line st <> Raise KeyError.
Proof.
  intros Hkey. unfold step. destruct (kind_of line).
  - destruct (re_search is_digit line); [|discriminate].
    destruct (nth_error circuit_names i); discriminate.
  - destruct (re_search is_digit_or_dot line) as [tok|]; [|discriminate].
    destruct (py_float_cases tok) as [(t & ->)| ->]; cbn [bind]; [|discriminate].
    destruct (circuit_name st) as [nm|]; [|discriminate].
    destruct (in_keys_dict_get _ nm (Hkey nm eq_refl)) as (e & ->). discriminate.
  - discriminate.
Qed.

(** The loop keeps the keys distinct and [circuit_name] among them. *)
Lemma step_keyed (i : nat) (line : string) (st st' : state) :
  (NoDup (map fst (parsed_data st)) /\
   forall nm, circuit_name st = Some nm -> In nm (map fst (parsed_data st))) ->
  step i line st = Ok st' ->
  NoDup (map fst (parsed_data st')) /\
  forall nm, circuit_name st' = Some nm -> In nm (map fst (parsed_data st')).
Proof.
  intros (Hnd & Hkey) Hstep.
  destruct (step_inv i line st st' Hstep)
    as [(Hk & tok & name & _ & _ & ->)|[(Hk & name & e & t & Hc & Hg & ->)|(Hk & ->)]];
    cbn [parsed_data circuit_name].
  - split; [apply dict_set_NoDup; exact Hnd|].
    intros nm [= <-]. apply in_keys_dict_set. now left.
  - split; [apply dict_set_NoDup; exact Hnd|].
    intros nm [= <-]. apply in_keys_dict_set. now left.
  - split; assumption.
Qed.

Lemma parse_lines_no_key_error (lines : list string) : forall i st,
  (NoDup (map fst (parsed_data st)) /\
   forall nm, circuit_name st = Some nm -> In nm (map fst (parsed_data st))) ->
  parse_lines i lines st <> Raise KeyError.
Proof.
  induction lines as [|l lines IH]; intros i st Hwf; cbn [parse_lines]; [discriminate|].
  pose proof (step_no_key_error i l st (proj2 Hwf)) as Hne.
  destruct (step i l st) as [s1|e|] eqn:Hstep; cbn [bind].
  - apply IH. exact (step_keyed i l st s1 Hwf Hstep).
  - intros [= ->]. apply Hne. reflexivity.
  - discriminate.
Qed.

Lemma parse_lines_well_formed (lines : list string) : forall i b st st',
  well_formed b st -> dangling b lines = false ->
  parse_lines i lines st = Ok st' -> well_formed false st'.
Proof.
  induction lines as [|l lines IH]; intros i b st st' Hwf Hd Hok.
  - cbn [dangling] in Hd. subst b. cbn [parse_lines] in Hok. injection Hok as <-.
    exact Hwf.
  - cbn [parse_lines] in Hok.
    destruct (step i l st) as [s1| |] eqn:Hstep; try discriminate Hok.
    cbn [bind] in Hok. pose proof (step_well_formed i l b st s1 Hwf Hstep) as Hs.
    cbn [dangling] in Hd. destruct (kind_of l).
    + apply orb_false_iff in Hd. destruct Hd as [Hb Hd].
      exact (IH (S i) true s1 st' (Hs Hb) Hd Hok).
    + exact (IH (S i) false s1 st' Hs Hd Hok).
    + exact (IH (S i) b s1 st' Hs Hd Hok).
Qed.

Lemma write_rows_timed (d : dict) :
  timed_except None d -> exists rows, write_rows d = Ok rows.
Proof.
  unfold timed_except. induction d as [|[k e] d IH]; intros Ht; cbn [write_rows].
  - eexists; reflexivity.
  - inversion Ht as [|? ? Hh Hd]; subst. cbn [fst snd] in Hh.
    destruct Hh as [Hk|Hk]; [discriminate Hk|].
    destruct (time_ms e) as [t|]; [|contradiction].
    destruct (IH Hd) as (rows & ->). cbn [bind]. eexists; reflexivity.
Qed.

Lemma initial_well_formed : well_formed false initial.
Proof.
  repeat split; cbn [initial parsed_data circuit_name map].
  - constructor.
  - intros nm H. discriminate H.
  - constructor.
Qed.

Lemma dangling_split (lines : list string) : forall b,
  dangling b lines = true ->
  (b = true /\
   exists mid rest, lines = mid ++ rest /\ Forall is_other mid /\
     (rest = [] \/ exists l2 rest', rest = l2 :: rest' /\ kind_of l2 = KSize)) \/
  (exists pre l1 mid rest,
     lines = pre ++ l1 :: mid ++ rest /\ kind_of l1 = KSize /\ Forall is_other mid /\
     (rest = [] \/ exists l2 rest', rest = l2 :: rest' /\ kind_of l2 = KSize)).
Proof.
  induction lines as [|l lines IH]; intros b Hd; cbn [dangling] in Hd.
  - left. split; [exact Hd|]. exists [], []. repeat split; [constructor|now left].
  - destruct (kind_of l) eqn:Hk.
    + destruct b.
      * left. split; [reflexivity|]. exists [], (l :: lines).
        repeat split; [constructor|]. right. exists l, lines. split; [reflexivity|exact Hk].
      * cbn [orb] in Hd. right.
        destruct (IH true Hd)
          as [(_ & mid & rest & -> & Hmid & Hrest)
             |(pre & l1 & mid & rest & -> & Hk1 & Hmid & Hrest)].
        -- exists [], l, mid, rest. repeat split; assumption.
        -- exists (l :: pre), l1, mid, rest. repeat split; assumption.
    + right. destruct (IH false Hd)
        as [(Hb & _)|(pre & l1 & mid & rest & -> & Hk1 & Hmid & Hrest)];
        [discriminate Hb|].
      exists (l :: pre), l1, mid, rest. repeat split; assumption.
    + destruct (IH b Hd)
        as [(Hb & mid & rest & -> & Hmid & Hrest)
           |(pre & l1 & mid & rest & -> & Hk1 & Hmid & Hrest)].
      * left. split; [exact Hb|]. exists (l :: mid), rest.
        repeat split; [constructor; assumption|assumption].
      * right. exists (l :: pre), l1, mid, rest. repeat split; assumption.
Qed.

(** X15: once every line is read without exception, the rows are written
    exactly when each size line is followed by an Elapsed line before the
    next size line and before the end of the log, and KeyError is raised
    exactly when some size line is not; no line of the loop raises
    KeyError. *)
Theorem key_error_iff_dangling_size_line (lines : list string) :
  (parse lines = Raise KeyError <->
   (exists st, parse_lines 0 lines initial = Ok st) /\ dangling false lines = true) /\
  ((exists rows, parse lines = Ok rows) <->
   (exists st, parse_lines 0 lines initial = Ok st) /\ dangling false lines = false).
Proof.
  pose proof initial_well_formed as Hwf0.
  assert (Hok : forall st, parse_lines 0 lines initial = Ok st ->
            dangling false lines = false -> exists rows, parse lines = Ok rows).
  { intros st Hloop Hd. unfold parse. rewrite Hloop. cbn [bind].
    apply write_rows_timed.
    destruct (parse_lines_well_formed lines 0 false initial st Hwf0 Hd Hloop)
      as (_ & _ & Ht). exact Ht. }
  assert (Hbad : forall st, parse_lines 0 lines initial = Ok st ->
            dangling false lines = true -> parse lines = Raise KeyError).
  { intros st Hloop Hd.
    destruct (dangling_split lines false Hd)
      as [(Hb & _)|(pre & l1 & mid & rest & Heq & Hk1 & Hmid & Hrest)];
      [discriminate Hb|].
    pose proof (size_without_elapsed_fails pre mid rest l1 Hk1 Hmid Hrest) as (e & He).
    rewrite <- Heq in He. unfold parse in *. rewrite Hloop in *. cbn [bind] in *.
    destruct (write_rows_cases (parsed_data st)) as [(rows & Hr)|Hr];
      [rewrite Hr in He; discriminate He|exact Hr]. }
  split; split.
  - intros Hr. unfold parse in Hr.
    destruct (parse_lines 0 lines initial) as [st|e|] eqn:Hloop; cbn [bind] in Hr.
    + split; [exists st; reflexivity|].
      destruct (dangling false lines) eqn:Hd; [reflexivity|exfalso].
      destruct (Hok st eq_refl eq_refl) as (rows & Hrows).
      unfold parse in Hrows. rewrite Hloop in Hrows. cbn [bind] in Hrows. congruence.
    + exfalso. injection Hr as ->.
      apply (parse_lines_no_key_error lines 0 initial); [|exact Hloop].
      destruct Hwf0 as (H1 & H2 & _). split; assumption.
    + discriminate Hr.
  - intros ((st & Hloop) & Hd). exact (Hbad st Hloop Hd).
  - intros (rows & Hr).
    assert (Hl : exists st, parse_lines 0 lines initial = Ok st).
    { unfold parse in Hr. destruct (parse_lines 0 lines initial) as [st|e|];
        [exists st; reflexivity|discriminate Hr|discriminate Hr]. }
    split; [exact Hl|]. destruct Hl as (st & Hloop).
    destruct (dangling false lines) eqn:Hd; [|reflexivity].
    rewrite (Hbad st Hloop eq_refl) in Hr. discriminate Hr.
  - intros ((st & Hloop) & Hd). exact (Hok st Hloop Hd).
Qed.

Lemma dict_of_keys (stack : list (string * Z * option Float.float)) :
  map fst (dict_of stack) = rev (map (fun r => fst (fst r)) stack).
Proof.
  unfold dict_of. rewrite map_map, map_rev. reflexivity.
Qed.

Lemma dict_of_cons (r : string * Z * option Float.float)
  (stack : list (string * Z * option Float.float)) :
  dict_of (r :: stack) = dict_of stack ++ [entry_of r].
Proof. unfold dict_of. cbn [rev]. rewrite map_app. reflexivity. Qed.

Lemma dict_get_app_absent (d0 d1 : dict) (k : string) :
  ~ In k (map fst d0) -> dict_get (d0 ++ d1) k = dict_get d1 k.
Proof.
  induction d0 as [|[k' v'] d0 IH]; intros Hn; cbn [app dict_get]; [reflexivity|].
  cbn [map fst In] in Hn.
  destruct (String.eqb_spec k' k) as [->|_]; [exfalso; apply Hn; now left|].
  apply IH. intros H. apply Hn. now right.
Qed.

Lemma dict_set_app_absent (d0 d1 : dict) (k : string) (v : entry) :
  ~ In k (map fst d0) -> dict_set (d0 ++ d1) k v = d0 ++ dict_set d1 k v.
Proof.
  induction d0 as [|[k' v'] d0 IH]; intros Hn; cbn [app dict_set]; [reflexivity|].
  cbn [map fst In] in Hn.
  destruct (String.eqb_spec k' k) as [->|_]; [exfalso; apply Hn; now left|].
  rewrite IH by (intros H; apply Hn; now right). reflexivity.
Qed.

Lemma step_holds_rows (i : nat) (line : string) (st st' : state)
  (stack : list (string * Z * option Float.float)) :
  holds_rows i st stack -> step i line st = Ok st' ->
  exists stack',
    holds_rows (S i) st' stack' /\
    forall rest, read_rows i (line :: rest) stack = read_rows (S i) rest stack'.
Proof.
  intros (Hpd & Hcn & Hnd & Hidx) Hstep.
  assert (Hidx' : forall r, In r stack ->
            exists j, (j < S i)%nat /\ nth_error circuit_names j = Some (fst (fst r))).
  { intros r Hr. destruct (Hidx r Hr) as (j & Hj & Hn). exists j. split; [lia|exact Hn]. }
  destruct (step_inv i line st st' Hstep)
    as [(Hk & tok & name & Htok & Hname & ->)
       |[(Hk & name & e & t & Hc & Hg & ->)|(Hk & ->)]].
  - exists ((name, int_of_digits tok 0, None) :: stack).
    assert (Habs : ~ In name (map (fun r => fst (fst r)) stack)).
    { intros Hin. apply in_map_iff in Hin. destruct Hin as (r & Hr & Hin).
      destruct (Hidx r Hin) as (j & Hj & Hn). rewrite Hr in Hn.
      assert (j = i) by (eapply circuit_names_inj; eassumption). lia. }
    split.
    + repeat split; cbn [parsed_data circuit_name fst snd map].
      * rewrite Hpd, dict_of_cons. apply dict_set_absent.
        rewrite dict_of_keys. intros Hin. apply in_rev in Hin. contradiction.
      * constructor; assumption.
      * intros r [<-|Hr]; [exists i; split; [lia|exact Hname]|exact (Hidx' r Hr)].
    + intros rest. cbn [read_rows]. rewrite Hk, Htok, Hname. reflexivity.
  - rewrite Hc in Hcn. destruct stack as [|[[nm sz] ot] below]; [discriminate Hcn|].
    cbn [fst] in Hcn. injection Hcn as ->.
    cbn [map fst] in Hnd. inversion Hnd as [|? ? Hnot Hnd']; subst.
    assert (Habs : ~ In nm (map fst (dict_of below))).
    { rewrite dict_of_keys. intros Hin. apply in_rev in Hin. contradiction. }
    rewrite Hpd, dict_of_cons in Hg. rewrite dict_get_app_absent in Hg by assumption.
    cbn [entry_of fst snd dict_get] in Hg. rewrite String.eqb_refl in Hg.
    injection Hg as <-. cbn [size].
    exists ((nm, sz, Some t) :: below). split.
    + repeat split; cbn [parsed_data circuit_name fst snd map].
      * rewrite Hpd, !dict_of_cons. rewrite dict_set_app_absent by assumption.
        cbn [entry_of fst snd dict_set]. rewrite String.eqb_refl. reflexivity.
      * constructor; assumption.
      * intros r [<-|Hr]; [|apply Hidx'; now right].
        apply (Hidx' (nm, sz, ot)). now left.
    + intros rest. cbn [read_rows]. rewrite Hk.
      unfold step in Hstep. rewrite Hk in Hstep.
      destruct (re_search is_digit_or_dot line) as [tok|]; [|discriminate Hstep].
      destruct (py_float tok) as [t'| |]; cbn [bind] in Hstep; try discriminate Hstep.
      rewrite Hc in Hstep. rewrite Hpd, dict_of_cons in Hstep.
      rewrite dict_get_app_absent in Hstep by assumption.
      cbn [entry_of fst snd dict_get] in Hstep. rewrite String.eqb_refl in Hstep.
      injection Hstep as Hst.
      assert (t' = t).
      { rewrite !dict_set_app_absent in Hst by assumption.
        apply app_inv_head in Hst. cbn [dict_set entry_of fst snd] in Hst.
        rewrite String.eqb_refl in Hst. congruence. }
      subst t'. reflexivity.
  - exists stack. split; [repeat split; assumption|].
    intros rest. cbn [read_rows]. rewrite Hk. reflexivity.
Qed.

Lemma parse_lines_holds_rows (lines : list string) : forall i st st' stack,
  holds_rows i st stack -> parse_lines i lines st = Ok st' ->
  exists stack', parsed_data st' = dict_of stack' /\ read_rows i lines stack = rev stack'.
Proof.
  induction lines as [|l lines IH]; intros i st st' stack Hh Hok.
  - cbn [parse_lines] in Hok. injection Hok as <-. exists stack.
    split; [exact (proj1 Hh)|reflexivity].
  - cbn [parse_lines] in Hok.
    destruct (step i l st) as [s1| |] eqn:Hstep; try discriminate Hok.
    cbn [bind] in Hok.
    destruct (step_holds_rows i l st s1 stack Hh Hstep) as (stack1 & Hh1 & Hread).
    destruct (IH (S i) s1 st' stack1 Hh1 Hok) as (stack' & Hpd & Hr).
    exists stack'. split; [exact Hpd|]. rewrite Hread. exact Hr.
Qed.

Lemma write_rows_entries (l : list (string * Z * option Float.float)) : forall rows,
  write_rows (map entry_of l) = Ok rows ->
  map (fun r => (fst (fst r), snd (fst r), Some (snd r))) rows = l.
Proof.
  induction l as [|[[nm sz] ot] l IH]; intros rows Hw; cbn [map write_rows] in Hw.
  - injection Hw as <-. reflexivity.
  - cbn [entry_of fst snd time_ms size] in Hw. destruct ot as [t|]; [|discriminate Hw].
    destruct (write_rows (map entry_of l)) as [rows'| |]; cbn [bind] in Hw;
      try discriminate Hw.
    injection Hw as <-. cbn [map fst snd]. rewrite (IH rows' eq_refl). reflexivity.
Qed.

(** X16: when the parser ends normally, its rows are those of a reading
    of the log in which each size line opens a new row and each Elapsed
    line sets the time of the row opened last: the dictionary is only ever
    changed at its newest key, and a repeated Elapsed line overwrites the
    time. *)
Theorem rows_are_last_elapsed_readings (lines : list string)
  (rows : list (string * Z * Float.float)) :
  parse lines = Ok rows ->
  map (fun r => (fst (fst r), snd (fst r), Some (snd r))) rows = read_rows 0 lines [].
Proof.
  intros Hp. unfold parse in Hp.
  destruct (parse_lines 0 lines initial) as [st| |] eqn:Hloop; try discriminate Hp.
  cbn [bind] in Hp.
  assert (H0 : holds_rows 0 initial []).
  { repeat split; cbn; try constructor. intros r []. }
  destruct (parse_lines_holds_rows lines 0 initial st [] H0 Hloop) as (stack & Hpd & Hr).
  rewrite Hr. rewrite Hpd in Hp. unfold dict_of in Hp.
  exact (write_rows_entries _ rows Hp).
Qed.

Lemma rows_are_last_elapsed_readings_witness :
  map (fun r : string * Z * Float.float => (fst (fst r), snd (fst r), Some (snd r)))
      [("amortized_aco_512_12.txt"%string, 1234,
        S754_finite false 4503599627370496 (-53))]
  = read_rows 0 ["The size of the serialized object is 1234 bytes";
                 "Elapsed: 12.5ms"; "Elapsed: 0.5ms"]%string [].
Proof.
  apply (rows_are_last_elapsed_readings
           ["The size of the serialized object is 1234 bytes";
            "Elapsed: 12.5ms"; "Elapsed: 0.5ms"]%string).
  vm_compute. reflexivity.
Defined.

End ParserMore.
